(** * Transcript annotation engine of [src/App.tsx]

    A shallow embedding of the highlight reconciler
    ([reconcileHighlightsAfterEdit]), the highlight merge engine (the body of
    [onApplyHighlight]) and the render segmenter (the [renderedTranscript]
    memo), together with the properties stated about them.

    Conventions of the embedding:
    - a JavaScript string is the list of its code units ([text]), taken
      here as 8-bit characters: the code only compares them and counts
      them, and nothing below depends on their width; the one character
      beyond that range the code names, the ellipsis, is stood for by the
      code unit 133;
    - offsets and timestamps are JavaScript numbers restricted to the
      integers ([Z]);
    - [Date.now()] and [uid('hl')] are explicit arguments ([now], [newId]);
    - [Array.prototype.sort] is a stable sort driven by a comparator that
      returns a number. *)

From Stdlib Require Import String Ascii ZArith List Bool Lia Sorted.
Import ListNotations.
Open Scope Z_scope.

(** ** Text buffers *)

Definition text := list ascii.

Definition len (t : text) : Z := Z.of_nat (length t).

(** [t[i]]: [None] stands for [undefined]. *)
Definition charAt (t : text) (i : Z) : option ascii :=
  if i <? 0 then None else nth_error t (Z.to_nat i).

Definition ascii_opt_eqb (x y : option ascii) : bool :=
  match x, y with
  | Some a, Some b => Ascii.eqb a b
  | None, None => true
  | _, _ => false
  end.

(** [String.prototype.slice(a, b)], negative arguments counted from the end. *)
Definition slice (t : text) (a b : Z) : text :=
  let from := if a <? 0 then Z.max (len t + a) 0 else Z.min a (len t) in
  let to := if b <? 0 then Z.max (len t + b) 0 else Z.min b (len t) in
  firstn (Z.to_nat (to - from)) (skipn (Z.to_nat from) t).

Definition clamp (n min max : Z) : Z := Z.max min (Z.min max n).

(** ** Data model *)

Inductive HighlightColor : Type :=
  | pink | orange | yellow | green | blue | purple.

Definition color_eqb (c d : HighlightColor) : bool :=
  match c, d with
  | pink, pink | orange, orange | yellow, yellow
  | green, green | blue, blue | purple, purple => true
  | _, _ => false
  end.

Record Anchor : Type := mkAnchor {
  a_text : text;
  a_prefix : option text;
  a_suffix : option text
}.

Record Highlight : Type := mkHighlight {
  hl_id : string;
  hl_createdAt : Z;
  hl_color : HighlightColor;
  hl_start : Z;
  hl_end : Z;
  hl_anchor : Anchor
}.

(** The anchor snapshot both the reconciler and the merge engine take. *)
Definition anchorAt (t : text) (start end_ : Z) : Anchor :=
  {| a_text := slice t start end_;
     a_prefix := Some (slice t (Z.max 0 (start - 16)) start);
     a_suffix := Some (slice t end_ (Z.min (len t) (end_ + 16))) |}.

(** ** Loops and array helpers *)

(** [while (ok i) i++], started at [i]; [fuel] bounds the iterations. *)
Fixpoint scan (fuel : nat) (ok : Z -> bool) (i : Z) : Z :=
  match fuel with
  | O => i
  | S f => if ok i then scan f ok (i + 1) else i
  end.

(** [arr.filter(Boolean)] on an array of objects and [null]s. *)
Fixpoint dropNulls {A : Type} (l : list (option A)) : list A :=
  match l with
  | [] => []
  | Some x :: r => x :: dropNulls r
  | None :: r => dropNulls r
  end.

(** Stable insertion: [x] goes behind every element it does not precede. *)
Fixpoint insertLast {A : Type} (cmp : A -> A -> Z) (x : A) (l : list A)
  : list A :=
  match l with
  | [] => [x]
  | y :: r => if cmp x y <? 0 then x :: y :: r else y :: insertLast cmp x r
  end.

(** [arr.sort(cmp)]: the stable sort of [arr]. *)
Definition sortBy {A : Type} (cmp : A -> A -> Z) (l : list A) : list A :=
  fold_left (fun acc x => insertLast cmp x acc) l [].

(** The order a comparator stands for. *)
Definition cmpLe {A : Type} (cmp : A -> A -> Z) (a b : A) : Prop :=
  cmp a b <= 0.

(** ** Highlight reconciler *)

Module Reconciler.

(** The condition of the first [while]. *)
Definition prefixGoesOn (oldText newText : text) (p : Z) : bool :=
  (p <? len oldText) && (p <? len newText)
  && ascii_opt_eqb (charAt oldText p) (charAt newText p).

(** The common prefix length [p]. *)
Definition commonPrefix (oldText newText : text) : Z :=
  scan (length oldText) (prefixGoesOn oldText newText) 0.

(** The condition of the second [while], which stops at the prefix. *)
Definition suffixGoesOn (oldText newText : text) (p s : Z) : bool :=
  (s <? len oldText - p) && (s <? len newText - p)
  && ascii_opt_eqb (charAt oldText (len oldText - 1 - s))
                   (charAt newText (len newText - 1 - s)).

(** The common suffix length [s]. *)
Definition commonSuffix (oldText newText : text) (p : Z) : Z :=
  scan (length oldText) (suffixGoesOn oldText newText p) 0.

Definition oldMidStart (oldText newText : text) : Z :=
  commonPrefix oldText newText.

Definition oldMidEnd (oldText newText : text) : Z :=
  len oldText - commonSuffix oldText newText (commonPrefix oldText newText).

Definition newMidStart (oldText newText : text) : Z :=
  commonPrefix oldText newText.

Definition newMidEnd (oldText newText : text) : Z :=
  len newText - commonSuffix oldText newText (commonPrefix oldText newText).

Definition delta (oldText newText : text) : Z :=
  newMidEnd oldText newText - newMidStart oldText newText
  - (oldMidEnd oldText newText - oldMidStart oldText newText).

Definition shiftIndex (oldText newText : text) (i : Z) : Z :=
  if i <=? oldMidStart oldText newText then i
  else if i >=? oldMidEnd oldText newText then i + delta oldText newText
  else
    let rel := i - oldMidStart oldText newText in
    clamp (newMidStart oldText newText + rel)
          (newMidStart oldText newText) (newMidEnd oldText newText).

(** The callback of [oldHighlights.map]. *)
Definition shiftHighlight (oldText newText : text) (h : Highlight)
  : option Highlight :=
  let newLen := len newText in
  let ns := shiftIndex oldText newText (hl_start h) in
  let ne := shiftIndex oldText newText (hl_end h) in
  let start := clamp (Z.min ns ne) 0 newLen in
  let end_ := clamp (Z.max ns ne) 0 newLen in
  if end_ <=? start then None
  else Some {| hl_id := hl_id h;
               hl_createdAt := hl_createdAt h;
               hl_color := hl_color h;
               hl_start := start;
               hl_end := end_;
               hl_anchor := anchorAt newText start end_ |}.

Definition reconcileHighlightsAfterEdit
  (oldText newText : text) (oldHighlights : list Highlight)
  : list Highlight :=
  let shifted := map (shiftHighlight oldText newText) oldHighlights in
  dropNulls shifted.

End Reconciler.

(** ** Highlight merge engine *)

Module MergeEngine.

(** [Math.min(s, ...xs)] and [Math.max(e, ...xs)]. *)
Definition minOf (s : Z) (xs : list Z) : Z := fold_left Z.min xs s.
Definition maxOf (e : Z) (xs : list Z) : Z := fold_left Z.max xs e.

(** The predicate of [sameColorOverlaps]. *)
Definition isSameColorOverlap (chosenColor : HighlightColor) (s e2 : Z)
  (h : Highlight) : bool :=
  color_eqb (hl_color h) chosenColor
  && negb ((hl_end h <=? s) || (hl_start h >=? e2)).

(** The predicate of [keep]. *)
Definition isKept (chosenColor : HighlightColor) (s e2 : Z)
  (h : Highlight) : bool :=
  if negb (color_eqb (hl_color h) chosenColor) then true
  else (hl_end h <=? s) || (hl_start h >=? e2).

(** The comparator of the final [sort]: by [start], then by [end]. *)
Definition cmpStartEnd (a b2 : Highlight) : Z :=
  if negb (hl_start a =? hl_start b2) then hl_start a - hl_start b2
  else hl_end a - hl_end b2.

(** What [onApplyHighlight] does to the highlights of the chapter it
    addresses, whose transcript is [t]. *)
Definition applyHighlight (t : text) (existing : list Highlight)
  (start end_ : Z) (chosenColor : HighlightColor)
  (newId : string) (now : Z) : list Highlight :=
  let s := clamp (Z.min start end_) 0 (len t) in
  let e2 := clamp (Z.max start end_) 0 (len t) in
  if e2 <=? s then existing
  else
    let alreadyExists :=
      existsb (fun h => (hl_start h =? s) && (hl_end h =? e2)
                        && color_eqb (hl_color h) chosenColor) existing in
    if alreadyExists then existing
    else
      let sameColorOverlaps :=
        filter (isSameColorOverlap chosenColor s e2) existing in
      let keep := filter (isKept chosenColor s e2) existing in
      let mergedStart :=
        match sameColorOverlaps with
        | [] => s
        | _ => minOf s (map hl_start sameColorOverlaps)
        end in
      let mergedEnd :=
        match sameColorOverlaps with
        | [] => e2
        | _ => maxOf e2 (map hl_end sameColorOverlaps)
        end in
      let toAdd :=
        {| hl_id := newId;
           hl_createdAt := now;
           hl_color := chosenColor;
           hl_start := mergedStart;
           hl_end := mergedEnd;
           hl_anchor := anchorAt t mergedStart mergedEnd |} in
      sortBy cmpStartEnd (keep ++ [toAdd]).

Record Chapter : Type := mkChapter {
  ch_id : string;
  ch_transcript : text;
  ch_highlights : list Highlight
}.

(** The callback of [b.chapters.map] inside [onApplyHighlight];
    [color || 'pink'] is the default of an absent color. *)
Definition onApplyHighlight (chapterId : string) (start end_ : Z)
  (color : option HighlightColor) (newId : string) (now : Z) (c : Chapter)
  : Chapter :=
  let chosenColor := match color with Some k => k | None => pink end in
  if negb (String.eqb (ch_id c) chapterId) then c
  else
    {| ch_id := ch_id c;
       ch_transcript := ch_transcript c;
       ch_highlights :=
         applyHighlight (ch_transcript c) (ch_highlights c)
                        start end_ chosenColor newId now |}.

End MergeEngine.

(** ** Render segmenter *)

Module Segmenter.

(** One result of [txt.matchAll(re)]: its index and the length of [m[0]]. *)
Record Match : Type := mkMatch { m_index : Z; m_length : Z }.

Record SearchRange : Type := mkSearchRange {
  sr_start : Z;
  sr_end : Z;
  sr_hit : Z
}.

(** One node pushed to [out]: the slice of [[a, b)], wrapped in a [<mark>]
    when [seg_search] is set and in a colored [<span>] when [seg_highlight]
    is set. *)
Record Segment : Type := mkSegment {
  seg_a : Z;
  seg_b : Z;
  seg_slice : text;
  seg_highlight : option Highlight;
  seg_search : option SearchRange
}.

(** [x || 0] on a number. *)
Definition orZero (x : Z) : Z := if x =? 0 then 0 else x.

(** Step 1: clamp every highlight into the text and drop the empty ones. *)
Definition clampHighlight (len : Z) (h : Highlight) : option Highlight :=
  let s := clamp (hl_start h) 0 len in
  let e := clamp (hl_end h) 0 len in
  if e <=? s then None
  else Some {| hl_id := hl_id h;
               hl_createdAt := hl_createdAt h;
               hl_color := hl_color h;
               hl_start := s;
               hl_end := e;
               hl_anchor := hl_anchor h |}.

Definition cmpStartCreated (a b : Highlight) : Z :=
  if negb (hl_start a =? hl_start b) then hl_start a - hl_start b
  else orZero (hl_createdAt a) - orZero (hl_createdAt b).

Definition normalizeHighlights (len : Z) (highlights : list Highlight)
  : list Highlight :=
  sortBy cmpStartCreated (dropNulls (map (clampHighlight len) highlights)).

(** Step 2: the loop over the matches, which numbers the hits and stops
    after 80 of them. *)
Fixpoint collectRanges (len : Z) (matches : list Match) (hit : Z)
  : list SearchRange :=
  match matches with
  | [] => []
  | m :: rest =>
      let start := m_index m in
      let end_ := start + orZero (m_length m) in
      if end_ >? start then
        mkSearchRange (clamp start 0 len) (clamp end_ 0 len) hit
        :: (if hit + 1 >=? 80 then [] else collectRanges len rest (hit + 1))
      else
        if hit >=? 80 then [] else collectRanges len rest hit
  end.

(** [bounds.add(x)] on a [Set<number>] kept in insertion order. *)
Definition setAdd (x : Z) (bounds : list Z) : list Z :=
  if existsb (Z.eqb x) bounds then bounds else bounds ++ [x].

(** Step 3: the boundary set and its sorted array. *)
Definition boundsOf (len : Z) (hs : list Highlight) (srs : list SearchRange)
  : list Z :=
  let b0 := setAdd len (setAdd 0 []) in
  let b1 :=
    fold_left (fun b h => setAdd (hl_end h) (setAdd (hl_start h) b)) hs b0 in
  fold_left (fun b r => setAdd (sr_end r) (setAdd (sr_start r) b)) srs b1.

(** The comparator [(a, b) => a - b]. *)
Definition cmpAscending (a b : Z) : Z := a - b.

Definition pointsOf (len : Z) (hs : list Highlight) (srs : list SearchRange)
  : list Z :=
  sortBy cmpAscending (boundsOf len hs srs).

Definition covers (a b : Z) (h : Highlight) : bool :=
  (hl_start h <? b) && (hl_end h >? a).

Definition topHighlightFor (hs : list Highlight) (a b : Z)
  : option Highlight :=
  let covering := filter (covers a b) hs in
  match covering with
  | [] => None
  | first :: _ =>
      Some (fold_left
              (fun best h =>
                 if orZero (hl_createdAt h) >? orZero (hl_createdAt best)
                 then h else best)
              covering first)
  end.

Definition searchFor (srs : list SearchRange) (a b : Z)
  : option SearchRange :=
  find (fun x => (sr_start x <? b) && (sr_end x >? a)) srs.

(** The [for] loop over adjacent points. *)
Fixpoint segmentsLoop (txt : text) (hs : list Highlight)
  (srs : list SearchRange) (points : list Z) : list Segment :=
  match points with
  | a :: rest =>
      match rest with
      | b :: _ =>
          (if b <=? a then []
           else
             match slice txt a b with
             | [] => []
             | sl =>
                 [ {| seg_a := a; seg_b := b; seg_slice := sl;
                      seg_highlight := topHighlightFor hs a b;
                      seg_search := searchFor srs a b |} ]
             end)
          ++ segmentsLoop txt hs srs rest
      | [] => []
      end
  | [] => []
  end.

(** The body of the [renderedTranscript] memo.  [matches] is what
    [txt.matchAll] yields for the active needle (nothing without a needle).
    With at most two points the whole text is returned as it is. *)
Definition renderedTranscript (txt : text) (highlights : list Highlight)
  (matches : list Match) : list Segment :=
  let len_ := len txt in
  let hs := normalizeHighlights len_ highlights in
  let searchRanges := collectRanges len_ matches 0 in
  let points := pointsOf len_ hs searchRanges in
  if (length points <=? 2)%nat then
    [ {| seg_a := 0; seg_b := len_; seg_slice := txt;
         seg_highlight := None; seg_search := None |} ]
  else segmentsLoop txt hs searchRanges points.

End Segmenter.

(** ** Text range utilities *)

Module TextUtils.

(** The code unit of ['…'] (U+2026); among 8-bit characters its
    Windows-1252 code stands for it.  It is not a whitespace character. *)
Definition ellipsis : ascii := "133"%char.

Definition newline : ascii := "010"%char.

Definition space : ascii := " "%char.

(** What [trim] strips and [\s] matches: tab, line feed, vertical tab, form
    feed, carriage return, space and no-break space (the whitespace and
    line terminators below 256). *)
Definition isWhite (c : ascii) : bool :=
  let n := nat_of_ascii c in
  ((9 <=? n) && (n <=? 13) || (n =? 32) || (n =? 160))%nat.

Fixpoint dropWhile {A : Type} (f : A -> bool) (l : list A) : list A :=
  match l with
  | [] => []
  | x :: r => if f x then dropWhile f r else l
  end.

(** [s.trim()]. *)
Definition trim (s : text) : text :=
  rev (dropWhile isWhite (rev (dropWhile isWhite s))).

(** [s.replace(/\s+/g, ' ')], scanning left to right; [inRun] tells that
    the run of whitespace being read has been replaced already. *)
Fixpoint replaceWhiteRuns (inRun : bool) (s : text) : text :=
  match s with
  | [] => []
  | c :: r =>
      if isWhite c then
        if inRun then replaceWhiteRuns true r
        else space :: replaceWhiteRuns true r
      else c :: replaceWhiteRuns false r
  end.

Definition normalize (s : text) : text := replaceWhiteRuns false (trim s).

(** The class [[.*+?^${}()|[\]\\]]. *)
Definition isRegExpSpecial (c : ascii) : bool :=
  existsb (Ascii.eqb c)
          [ "."%char; "*"%char; "+"%char; "?"%char; "^"%char; "$"%char;
            "{"%char; "}"%char; "("%char; ")"%char; "|"%char; "["%char;
            "]"%char; "\"%char ].

(** [s.replace(/[.*+?^${}()|[\]\\]/g, '\\$&')]. *)
Fixpoint escapeRegExp (s : text) : text :=
  match s with
  | [] => []
  | c :: r =>
      if isRegExpSpecial c then "\"%char :: c :: escapeRegExp r
      else c :: escapeRegExp r
  end.

Definition makePreview (txt : text) (startIndex needleLen : Z) : text :=
  let radius := 44 in
  let a := clamp (startIndex - radius) 0 (len txt) in
  let b := clamp (startIndex + needleLen + radius) 0 (len txt) in
  let leftEll := if a >? 0 then [ellipsis] else [] in
  let rightEll := if b <? len txt then [ellipsis] else [] in
  leftEll ++ slice txt a b ++ rightEll.

(** [text.replace(/…\n?/g, '')]. *)
Fixpoint removeEllipses (s : text) : text :=
  match s with
  | [] => []
  | c :: r =>
      if Ascii.eqb c ellipsis then
        match r with
        | d :: r' =>
            if Ascii.eqb d newline then removeEllipses r'
            else removeEllipses r
        | [] => []
        end
      else c :: removeEllipses r
  end.

(** [text.replace(/\n{3,}/g, '\n\n')], scanning left to right; [run] counts
    the line feeds of the current run that were kept. *)
Fixpoint squeezeNewlines (run : nat) (s : text) : text :=
  match s with
  | [] => []
  | c :: r =>
      if Ascii.eqb c newline then
        if (run <? 2)%nat then newline :: squeezeNewlines (S run) r
        else squeezeNewlines run r
      else c :: squeezeNewlines 0 r
  end.

Definition noTranscript : text :=
  list_ascii_of_string "(No transcript captured.)".

Definition cleanTranscript (s : text) : text :=
  match trim (squeezeNewlines 0 (removeEllipses s)) with
  | [] => noTranscript
  | t => t
  end.

End TextUtils.

(** ** Search panel and chapter bookkeeping *)

Module Panel.

Import TextUtils.

(** A transcript hit of the notes panel; its [id] is [t_<index>_<count>]. *)
Record TranscriptHit : Type := mkTranscriptHit {
  th_index : Z;
  th_count : Z;
  th_preview : text;
  th_needle : text
}.

(** The [while ((m = re.exec(txt)) && count < 30)] loop over the successive
    matches of the query. *)
Fixpoint transcriptHitsFrom (txt query : text) (matches : list Z) (count : Z)
  : list TranscriptHit :=
  match matches with
  | [] => []
  | idx :: rest =>
      if count <? 30 then
        {| th_index := idx;
           th_count := count;
           th_preview := makePreview txt idx (len query);
           th_needle := query |}
        :: transcriptHitsFrom txt query rest (count + 1)
      else []
  end.

(** The transcript hits of [NotesSearchPanel] for the typed text [q];
    [matchesOf] stands for the regular-expression engine: the indices at
    which the escaped query matches the transcript, in order. *)
Definition transcriptHits (matchesOf : text -> text -> list Z)
  (txt q : text) : list TranscriptHit :=
  let query := normalize q in
  match query with
  | [] => []
  | _ => transcriptHitsFrom txt query (matchesOf (escapeRegExp query) txt) 0
  end.

(** The transcript after a recording is appended to a chapter. *)
Definition appendTranscript (transcript transcriptNew : text) : text :=
  let existingTranscript := trim transcript in
  match existingTranscript with
  | [] => transcriptNew
  | _ => existingTranscript ++ [newline; newline] ++ transcriptNew
  end.

(** The index of a chapter recorded into a book whose chapters have the
    indices [indices]: [Math.max(0, ...indices.map(i => i || 0)) + 1]. *)
Definition nextIndex (indices : list Z) : Z :=
  MergeEngine.maxOf 0 (map Segmenter.orZero indices) + 1.

End Panel.

(** ** A chapter under edits and highlight requests *)

Module Session.

Import Reconciler MergeEngine.

(** The callback of [b.chapters.map] in the Save button of the transcript
    editor: the draft replaces the transcript and the highlights are
    reconciled. *)
Definition saveTranscriptEdit (chapterId : string) (editDraft : text)
  (c : Chapter) : Chapter :=
  if negb (String.eqb (ch_id c) chapterId) then c
  else
    let oldText := ch_transcript c in
    let newText := editDraft in
    let oldHighlights := ch_highlights c in
    {| ch_id := ch_id c;
       ch_transcript := newText;
       ch_highlights :=
         reconcileHighlightsAfterEdit oldText newText oldHighlights |}.

(** The two events that change the highlights of a chapter. *)
Inductive Action : Type :=
  | SaveEdit (chapterId : string) (editDraft : text)
  | ApplyHighlight (chapterId : string) (start end_ : Z)
      (color : option HighlightColor) (newId : string) (now : Z).

Definition step (c : Chapter) (a : Action) : Chapter :=
  match a with
  | SaveEdit chapterId editDraft => saveTranscriptEdit chapterId editDraft c
  | ApplyHighlight chapterId start end_ color newId now =>
      onApplyHighlight chapterId start end_ color newId now c
  end.

(** The chapter after a sequence of events. *)
Definition run (c : Chapter) (actions : list Action) : Chapter :=
  fold_left step actions c.

End Session.

(** ** Concrete inputs *)

Definition str (s : string) : text := list_ascii_of_string s.

Definition hl (i : string) (ts : Z) (c : HighlightColor) (a b : Z)
  : Highlight :=
  {| hl_id := i; hl_createdAt := ts; hl_color := c; hl_start := a;
     hl_end := b; hl_anchor := mkAnchor [] None None |}.

Definition span (h : Highlight) : Z * Z := (hl_start h, hl_end h).

Import Reconciler MergeEngine Segmenter TextUtils Panel Session.

(** ** Predicates of the specification *)

(** The data-model invariant of a highlight anchored in [t]. *)
Definition inRange (t : text) (h : Highlight) : Prop :=
  0 <= hl_start h /\ hl_start h < hl_end h /\ hl_end h <= len t.

(** Everything of a highlight but its anchor snapshot. *)
Definition entity (h : Highlight)
  : string * Z * HighlightColor * Z * Z :=
  (hl_id h, hl_createdAt h, hl_color h, hl_start h, hl_end h).

(** The text a highlight spans in [t]. *)
Definition spanText (t : text) (h : Highlight) : text :=
  slice t (hl_start h) (hl_end h).

(** Two ranges overlap strictly when they share an offset. *)
Definition overlap (a b : Highlight) : Prop :=
  Z.max (hl_start a) (hl_start b) < Z.min (hl_end a) (hl_end b).

Definition sameColorDisjoint (a b : Highlight) : Prop :=
  hl_color a = hl_color b -> ~ overlap a b.

(** No two highlights of a list have the same color and overlapping
    ranges. *)
Definition noSameColorOverlap (l : list Highlight) : Prop :=
  ForallOrdPairs sameColorDisjoint l.

(** [h] under a fresh [id] and [createdAt]. *)
Definition refresh (newId : string) (now : Z) (h : Highlight) : Highlight :=
  {| hl_id := newId;
     hl_createdAt := now;
     hl_color := hl_color h;
     hl_start := hl_start h;
     hl_end := hl_end h;
     hl_anchor := hl_anchor h |}.

(** The request after clamping, and the highlight the merge adds. *)
Definition clampedStart (t : text) (start end_ : Z) : Z :=
  clamp (Z.min start end_) 0 (len t).

Definition clampedEnd (t : text) (start end_ : Z) : Z :=
  clamp (Z.max start end_) 0 (len t).

Definition mergedHighlight (t : text) (existing : list Highlight)
  (s e2 : Z) (chosenColor : HighlightColor) (newId : string) (now : Z)
  : Highlight :=
  let overlaps := filter (isSameColorOverlap chosenColor s e2) existing in
  let mergedStart := minOf s (map hl_start overlaps) in
  let mergedEnd := maxOf e2 (map hl_end overlaps) in
  {| hl_id := newId;
     hl_createdAt := now;
     hl_color := chosenColor;
     hl_start := mergedStart;
     hl_end := mergedEnd;
     hl_anchor := anchorAt t mergedStart mergedEnd |}.

Definition alreadyExists (existing : list Highlight) (s e2 : Z)
  (chosenColor : HighlightColor) : bool :=
  existsb (fun h => (hl_start h =? s) && (hl_end h =? e2)
                    && color_eqb (hl_color h) chosenColor) existing.

(** [l1] is [l2] with some elements left out, the others in order. *)
Inductive Subsequence {A : Type} : list A -> list A -> Prop :=
  | Subsequence_nil : Subsequence [] []
  | Subsequence_skip (x : A) (l1 l2 : list A) :
      Subsequence l1 l2 -> Subsequence l1 (x :: l2)
  | Subsequence_keep (x : A) (l1 l2 : list A) :
      Subsequence l1 l2 -> Subsequence (x :: l1) (x :: l2).

(** What identifies a highlight across an edit. *)
Definition identity (h : Highlight) : string * Z * HighlightColor :=
  (hl_id h, hl_createdAt h, hl_color h).

(** Offset [x] is colored [c] by some highlight of [l]. *)
Definition colored (l : list Highlight) (c : HighlightColor) (x : Z)
  : Prop :=
  exists h, In h l /\ hl_color h = c /\ hl_start h <= x /\ x < hl_end h.

(** The invariant of a chapter: its highlights lie within its transcript
    and no two of the same color overlap. *)
Definition chapterOk (c : Chapter) : Prop :=
  Forall (inRange (ch_transcript c)) (ch_highlights c)
  /\ noSameColorOverlap (ch_highlights c).

(** [t] does not begin with whitespace. *)
Definition startsClean (t : text) : bool :=
  match t with
  | [] => true
  | c :: _ => negb (isWhite c)
  end.

(** [t] does not end with whitespace. *)
Fixpoint endsClean (t : text) : bool :=
  match t with
  | [] => true
  | c :: r =>
      match r with
      | [] => negb (isWhite c)
      | _ :: _ => endsClean r
      end
  end.

(** Every whitespace character of [t] is a space that a character other
    than whitespace follows. *)
Fixpoint spaced (t : text) : bool :=
  match t with
  | [] => true
  | c :: r =>
      if isWhite c then
        Ascii.eqb c space
        && match r with
           | [] => false
           | d :: _ => negb (isWhite d)
           end
        && spaced r
      else spaced r
  end.

(** The texts [normalize] produces: words separated by single spaces. *)
Definition normalForm (t : text) : bool := startsClean t && spaced t.

(** [t] has no three line feeds in a row, [k] line feeds standing
    immediately before it. *)
Fixpoint shortRuns (k : nat) (t : text) : bool :=
  match t with
  | [] => true
  | c :: r =>
      if Ascii.eqb c newline then (k <? 2)%nat && shortRuns (S k) r
      else shortRuns 0 r
  end.

(** Reading an escaped pattern back: a backslash stands for the
    character behind it. *)
Fixpoint unescape (t : text) : text :=
  match t with
  | [] => []
  | c :: r =>
      if Ascii.eqb c "\"%char then
        match r with
        | d :: r' => d :: unescape r'
        | [] => [c]
        end
      else c :: unescape r
  end.

(** The segments [segs] tile [[from, to)]: each starts where the one before
    it ends and carries the text of its range. *)
Fixpoint tiles (txt : text) (from : Z) (segs : list Segment) (to : Z)
  : Prop :=
  match segs with
  | [] => from = to
  | sg :: rest =>
      seg_a sg = from /\ from <= seg_b sg
      /\ seg_slice sg = slice txt (seg_a sg) (seg_b sg)
      /\ tiles txt (seg_b sg) rest to
  end.

(** ** Facts about the helpers *)

Lemma len_nonneg (t : text) : 0 <= len t.
Proof. unfold len. lia. Qed.

Lemma ascii_opt_eqb_eq (x y : option ascii) :
  ascii_opt_eqb x y = true <-> x = y.
Proof.
  destruct x as [a|], y as [b|]; simpl; split; intro H;
    try discriminate; try reflexivity.
  - apply Ascii.eqb_eq in H. now subst.
  - injection H as ->. apply Ascii.eqb_refl.
Qed.

Lemma clamp_range (n lo hi : Z) : lo <= hi -> lo <= clamp n lo hi <= hi.
Proof. unfold clamp. lia. Qed.

Lemma clamp_id (n lo hi : Z) : lo <= n <= hi -> clamp n lo hi = n.
Proof. unfold clamp. lia. Qed.

Section Scan.

Variable ok : Z -> bool.

Lemma scan_ge (fuel : nat) (i : Z) : i <= scan fuel ok i.
Proof.
  revert i. induction fuel as [|f IH]; intro i; simpl; [lia|].
  destruct (ok i); [|lia]. specialize (IH (i + 1)). lia.
Qed.

Lemma scan_all (fuel : nat) (i j : Z) :
  i <= j < scan fuel ok i -> ok j = true.
Proof.
  revert i. induction fuel as [|f IH]; intros i Hj; simpl in Hj; [lia|].
  destruct (ok i) eqn:Hi; [|lia].
  destruct (Z.eq_dec j i) as [->|Hne]; [exact Hi|].
  apply (IH (i + 1)). lia.
Qed.

(** With enough fuel the loop stops because its condition fails. *)
Lemma scan_exit (bound : Z) (fuel : nat) (i : Z) :
  (forall j, ok j = true -> j < bound) ->
  bound - i <= Z.of_nat fuel ->
  ok (scan fuel ok i) = false.
Proof.
  intros Hb. revert i. induction fuel as [|f IH]; intros i Hf; simpl.
  - destruct (ok i) eqn:Hi; [|reflexivity].
    apply Hb in Hi. lia.
  - destruct (ok i) eqn:Hi; [|exact Hi].
    apply IH. lia.
Qed.

End Scan.

(** ** The stable sort *)

Section Sorting.

Context {A : Type}.
Variable cmp : A -> A -> Z.

Lemma In_insertLast (x y : A) (l : list A) :
  In y (insertLast cmp x l) <-> y = x \/ In y l.
Proof.
  induction l as [|z r IH]; simpl.
  - intuition.
  - destruct (cmp x z <? 0); simpl; [intuition|].
    rewrite IH. intuition.
Qed.

Lemma sortBy_snoc (l : list A) (x : A) :
  sortBy cmp (l ++ [x]) = insertLast cmp x (sortBy cmp l).
Proof. unfold sortBy. now rewrite fold_left_app. Qed.

Lemma In_sortBy (y : A) (l : list A) : In y (sortBy cmp l) <-> In y l.
Proof.
  induction l as [|x r IH] using rev_ind; [reflexivity|].
  rewrite sortBy_snoc, In_insertLast, IH, in_app_iff. simpl. intuition.
Qed.

Lemma length_insertLast (x : A) (l : list A) :
  length (insertLast cmp x l) = S (length l).
Proof.
  induction l as [|z r IH]; simpl; [reflexivity|].
  destruct (cmp x z <? 0); simpl; now rewrite ?IH.
Qed.

Lemma length_sortBy (l : list A) : length (sortBy cmp l) = length l.
Proof.
  induction l as [|x r IH] using rev_ind; [reflexivity|].
  rewrite sortBy_snoc, length_insertLast, IH, length_app. simpl. lia.
Qed.

(** Where [x] lands depends only on which elements it precedes. *)
Lemma insertLast_split (x : A) (l : list A) :
  exists l1 l2,
    l = l1 ++ l2
    /\ forall x',
         (forall y, In y l -> (cmp x' y <? 0) = (cmp x y <? 0)) ->
         insertLast cmp x' l = l1 ++ x' :: l2.
Proof.
  induction l as [|z r (l1 & l2 & Hl & IH)].
  - exists [], []. split; [reflexivity|]. reflexivity.
  - destruct (cmp x z <? 0) eqn:E.
    + exists [], (z :: r). split; [reflexivity|].
      intros x' Hx'. simpl. rewrite (Hx' z (or_introl eq_refl)), E.
      reflexivity.
    + exists (z :: l1), l2. split; [simpl; now rewrite Hl|].
      intros x' Hx'. simpl. rewrite (Hx' z (or_introl eq_refl)), E.
      rewrite IH; [reflexivity|]. intros y Hy. apply Hx'. now right.
Qed.

(** A symmetric relation between all pairs survives the sort. *)
Section Pairs.

Variable R : A -> A -> Prop.
Hypothesis R_sym : forall a b, R a b -> R b a.

Lemma pairs_insertLast (x : A) (l : list A) :
  Forall (R x) l -> ForallOrdPairs R l ->
  ForallOrdPairs R (insertLast cmp x l).
Proof.
  induction l as [|z r IH]; intros Hx Hl; simpl.
  - constructor; constructor.
  - destruct (cmp x z <? 0); [now constructor|].
    inversion Hx; subst. inversion Hl; subst.
    constructor; [|auto].
    apply Forall_forall. intros y Hy.
    apply In_insertLast in Hy as [->|Hy]; [auto|].
    eapply Forall_forall; eauto.
Qed.

Lemma pairs_snoc (l : list A) (x : A) :
  ForallOrdPairs R l -> Forall (R x) l ->
  ForallOrdPairs R (l ++ [x]).
Proof.
  induction l as [|z r IH]; intros Hl Hx; simpl.
  - constructor; constructor.
  - inversion Hl; subst. inversion Hx; subst.
    constructor; [|auto].
    apply Forall_app. split; [assumption|]. constructor; auto.
Qed.

Lemma pairs_snoc_inv (l : list A) (x : A) :
  ForallOrdPairs R (l ++ [x]) ->
  ForallOrdPairs R l /\ Forall (R x) l.
Proof.
  induction l as [|z r IH]; simpl; intros H.
  - split; constructor.
  - inversion H as [|? ? Hz Hr]; subst.
    apply Forall_app in Hz as [Hz1 Hz2]. inversion Hz2; subst.
    destruct (IH Hr) as [IH1 IH2].
    split; constructor; auto.
Qed.

Lemma pairs_sortBy (l : list A) :
  ForallOrdPairs R l -> ForallOrdPairs R (sortBy cmp l).
Proof.
  induction l as [|x r IH] using rev_ind; intros H.
  - constructor.
  - apply pairs_snoc_inv in H as [Hr Hx].
    rewrite sortBy_snoc. apply pairs_insertLast; [|now apply IH].
    apply Forall_forall. intros y Hy. rewrite In_sortBy in Hy.
    rewrite Forall_forall in Hx. now apply Hx.
Qed.

Lemma pairs_filter (f : A -> bool) (l : list A) :
  ForallOrdPairs R l -> ForallOrdPairs R (filter f l).
Proof.
  induction 1 as [|a l Ha Hl IH]; simpl; [constructor|].
  destruct (f a); [|assumption].
  constructor; [|assumption].
  apply Forall_forall. intros y Hy. apply filter_In in Hy as [Hy _].
  eapply Forall_forall; eauto.
Qed.

Lemma pairs_In (l : list A) (a b : A) :
  ForallOrdPairs R l -> In a l -> In b l -> a <> b -> R a b.
Proof.
  intros Hl Ha Hb Hne.
  destruct (ForallOrdPairs_In Hl a b Ha Hb) as [H|[H|H]]; auto.
  contradiction.
Qed.

End Pairs.

(** Sortedness, for a comparator that is a total preorder. *)
Section Ordered.

Hypothesis cmp_trans :
  forall a b c, cmp a b <= 0 -> cmp b c <= 0 -> cmp a c <= 0.
Hypothesis cmp_total : forall a b, 0 <= cmp a b -> cmp b a <= 0.
Hypothesis cmp_asym : forall a b, cmp a b < 0 -> 0 < cmp b a.

Lemma insertLast_sorted (x : A) (l : list A) :
  StronglySorted (cmpLe cmp) l ->
  StronglySorted (cmpLe cmp) (insertLast cmp x l).
Proof.
  induction 1 as [|z r Hr IH Hz]; simpl.
  - constructor; constructor.
  - destruct (cmp x z <? 0) eqn:E.
    + apply Z.ltb_lt in E.
      constructor; [now constructor|].
      constructor; [unfold cmpLe; lia|].
      eapply Forall_impl; [|exact Hz]. intros y Hy.
      apply (cmp_trans x z y); [lia|exact Hy].
    + apply Z.ltb_ge in E.
      constructor; [assumption|].
      apply Forall_forall. intros y Hy.
      apply In_insertLast in Hy as [->|Hy].
      * now apply cmp_total.
      * eapply Forall_forall in Hz; eauto.
Qed.

Lemma sortBy_sorted (l : list A) : StronglySorted (cmpLe cmp) (sortBy cmp l).
Proof.
  induction l as [|x r IH] using rev_ind; [constructor|].
  rewrite sortBy_snoc. now apply insertLast_sorted.
Qed.

Lemma insertLast_behind (x : A) (l : list A) :
  Forall (fun y => (cmpLe cmp) y x) l -> insertLast cmp x l = l ++ [x].
Proof.
  induction 1 as [|z r Hz _ IH]; simpl; [reflexivity|].
  destruct (cmp x z <? 0) eqn:E; [|now rewrite IH].
  apply Z.ltb_lt in E. apply cmp_asym in E. unfold cmpLe in Hz. lia.
Qed.

Lemma sorted_snoc_inv (l : list A) (x : A) :
  StronglySorted (cmpLe cmp) (l ++ [x]) ->
  StronglySorted (cmpLe cmp) l /\ Forall (fun y => (cmpLe cmp) y x) l.
Proof.
  induction l as [|z r IH]; simpl; intros H.
  - split; constructor.
  - apply StronglySorted_inv in H as [Hr Hz].
    apply Forall_app in Hz as [Hz1 Hz2]. inversion Hz2; subst.
    destruct (IH Hr). split; constructor; auto.
Qed.

(** Sorting a sorted array leaves it as it is. *)
Lemma sortBy_sorted_id (l : list A) :
  StronglySorted (cmpLe cmp) l -> sortBy cmp l = l.
Proof.
  induction l as [|x r IH] using rev_ind; intros H; [reflexivity|].
  apply sorted_snoc_inv in H as [Hr Hx].
  rewrite sortBy_snoc, (IH Hr). now apply insertLast_behind.
Qed.

End Ordered.

End Sorting.

(** ** The prefix and suffix loops *)

Section Diff.

Variables oldText newText : text.

Let p := commonPrefix oldText newText.
Let s := commonSuffix oldText newText p.

Lemma prefixGoesOn_inv (q : Z) :
  prefixGoesOn oldText newText q = true ->
  q < len oldText /\ q < len newText
  /\ charAt oldText q = charAt newText q.
Proof.
  unfold prefixGoesOn. intros H.
  apply andb_prop in H as [H H3]. apply andb_prop in H as [H1 H2].
  apply Z.ltb_lt in H1, H2. apply ascii_opt_eqb_eq in H3. auto.
Qed.

Lemma suffixGoesOn_inv (q : Z) :
  suffixGoesOn oldText newText p q = true ->
  q < len oldText - p /\ q < len newText - p
  /\ charAt oldText (len oldText - 1 - q)
     = charAt newText (len newText - 1 - q).
Proof.
  unfold suffixGoesOn. intros H.
  apply andb_prop in H as [H H3]. apply andb_prop in H as [H1 H2].
  apply Z.ltb_lt in H1, H2. apply ascii_opt_eqb_eq in H3. auto.
Qed.

Lemma commonPrefix_bounds :
  0 <= p /\ p <= len oldText /\ p <= len newText.
Proof.
  pose proof (scan_ge (prefixGoesOn oldText newText) (length oldText) 0)
    as Hge.
  fold (commonPrefix oldText newText) in Hge. fold p in Hge.
  pose proof (len_nonneg oldText). pose proof (len_nonneg newText).
  destruct (Z.eq_dec p 0) as [Hz|Hne]; [lia|].
  assert (Hok : prefixGoesOn oldText newText (p - 1) = true)
    by (apply (scan_all _ (length oldText) 0);
        fold (commonPrefix oldText newText); fold p; lia).
  apply prefixGoesOn_inv in Hok. lia.
Qed.

Lemma commonPrefix_match (j : Z) :
  0 <= j < p -> charAt oldText j = charAt newText j.
Proof.
  intros Hj.
  apply (scan_all (prefixGoesOn oldText newText)) in Hj.
  now apply prefixGoesOn_inv in Hj.
Qed.

Lemma commonPrefix_exit :
  p = len oldText \/ p = len newText
  \/ charAt oldText p <> charAt newText p.
Proof.
  pose proof commonPrefix_bounds as Hb.
  assert (Hex : prefixGoesOn oldText newText p = false).
  { apply (scan_exit _ (len oldText)); [|unfold len; lia].
    intros j Hj. now apply prefixGoesOn_inv in Hj. }
  unfold prefixGoesOn in Hex.
  destruct (p <? len oldText) eqn:H1; [|apply Z.ltb_ge in H1; lia].
  destruct (p <? len newText) eqn:H2; [|apply Z.ltb_ge in H2; lia].
  simpl in Hex. right; right. intro Heq.
  apply ascii_opt_eqb_eq in Heq. congruence.
Qed.

Lemma commonSuffix_bounds :
  0 <= s /\ s <= len oldText - p /\ s <= len newText - p.
Proof.
  pose proof commonPrefix_bounds as Hp.
  pose proof (scan_ge (suffixGoesOn oldText newText p) (length oldText) 0)
    as Hge.
  fold (commonSuffix oldText newText p) in Hge. fold s in Hge.
  destruct (Z.eq_dec s 0) as [Hz|Hne]; [lia|].
  assert (Hok : suffixGoesOn oldText newText p (s - 1) = true)
    by (apply (scan_all _ (length oldText) 0);
        fold (commonSuffix oldText newText p); fold s; lia).
  apply suffixGoesOn_inv in Hok. lia.
Qed.

Lemma commonSuffix_match (j : Z) :
  0 <= j < s ->
  charAt oldText (len oldText - 1 - j) = charAt newText (len newText - 1 - j).
Proof.
  intros Hj.
  apply (scan_all (suffixGoesOn oldText newText p)) in Hj.
  now apply suffixGoesOn_inv in Hj.
Qed.

Lemma commonSuffix_exit :
  s = len oldText - p \/ s = len newText - p
  \/ charAt oldText (len oldText - 1 - s)
     <> charAt newText (len newText - 1 - s).
Proof.
  pose proof commonPrefix_bounds as Hp.
  pose proof commonSuffix_bounds as Hb.
  assert (Hex : suffixGoesOn oldText newText p s = false).
  { apply (scan_exit _ (len oldText - p)); [|unfold len; lia].
    intros j Hj. now apply suffixGoesOn_inv in Hj. }
  unfold suffixGoesOn in Hex.
  destruct (s <? len oldText - p) eqn:H1; [|apply Z.ltb_ge in H1; lia].
  destruct (s <? len newText - p) eqn:H2; [|apply Z.ltb_ge in H2; lia].
  simpl in Hex. right; right. intro Heq.
  apply ascii_opt_eqb_eq in Heq. congruence.
Qed.

(** The edited regions are well formed and [delta] is the change of
    length. *)
Lemma mid_regions :
  0 <= oldMidStart oldText newText <= oldMidEnd oldText newText
  /\ oldMidEnd oldText newText <= len oldText
  /\ 0 <= newMidStart oldText newText <= newMidEnd oldText newText
  /\ newMidEnd oldText newText <= len newText
  /\ delta oldText newText = len newText - len oldText.
Proof.
  pose proof commonPrefix_bounds. pose proof commonSuffix_bounds.
  unfold delta, oldMidStart, oldMidEnd, newMidStart, newMidEnd.
  fold p. fold s. lia.
Qed.

End Diff.

(** ** Reconciler: ranges stay valid *)

Lemma shiftHighlight_inRange (oldText newText : text) (h h' : Highlight) :
  shiftHighlight oldText newText h = Some h' -> inRange newText h'.
Proof.
  unfold shiftHighlight, inRange. intros H.
  pose proof (len_nonneg newText) as Hlen.
  destruct (_ <=? _) eqn:Hle; [discriminate|].
  injection H as <-. simpl.
  apply Z.leb_gt in Hle.
  pose proof (clamp_range
    (Z.min (shiftIndex oldText newText (hl_start h))
           (shiftIndex oldText newText (hl_end h))) 0 (len newText) Hlen).
  pose proof (clamp_range
    (Z.max (shiftIndex oldText newText (hl_start h))
           (shiftIndex oldText newText (hl_end h))) 0 (len newText) Hlen).
  lia.
Qed.

Lemma In_dropNulls {A : Type} (l : list (option A)) (x : A) :
  In x (dropNulls l) <-> In (Some x) l.
Proof.
  induction l as [|[y|] r IH]; simpl.
  - tauto.
  - rewrite IH. split; intros [H|H]; auto.
    + left. now f_equal.
    + left. now injection H.
  - rewrite IH. split; [auto|]. intros [H|H]; [discriminate|auto].
Qed.

(** C1. Every highlight returned by [reconcileHighlightsAfterEdit] satisfies
    [0 <= start < end <= length(newText)], whatever the two texts and the
    input highlights are; a highlight whose mapped span is empty is not
    returned. *)
Theorem reconcile_ranges_valid
  (oldText newText : text) (oldHighlights : list Highlight) :
  Forall (fun h => 0 <= hl_start h /\ hl_start h < hl_end h
                   /\ hl_end h <= len newText)
         (reconcileHighlightsAfterEdit oldText newText oldHighlights).
Proof.
  apply Forall_forall. intros h' Hin.
  unfold reconcileHighlightsAfterEdit in Hin.
  apply In_dropNulls in Hin. apply in_map_iff in Hin as [h [Hh _]].
  exact (shiftHighlight_inRange oldText newText h h' Hh).
Qed.

(** ** Reconciler: offsets inside the edited region *)

Lemma shiftIndex_inside (oldText newText : text) (i : Z) :
  oldMidStart oldText newText < i < oldMidEnd oldText newText ->
  shiftIndex oldText newText i
  = Z.min (newMidStart oldText newText + (i - oldMidStart oldText newText))
          (newMidEnd oldText newText).
Proof.
  intros Hi. pose proof (mid_regions oldText newText) as Hm.
  unfold shiftIndex.
  destruct (i <=? _) eqn:H1; [apply Z.leb_le in H1; lia|].
  destruct (i >=? _) eqn:H2; [apply Z.geb_le in H2; lia|].
  unfold clamp. lia.
Qed.

(** C3, as the code has it.  An offset strictly inside the old edited region
    keeps its distance from the start of the region when that still falls
    inside the new edited region and is pinned to [newMidEnd] otherwise;
    it always lies in [(newMidStart, newMidEnd]]. *)
Theorem shiftIndex_inside_clamped (oldText newText : text) (i : Z) :
  oldMidStart oldText newText < i < oldMidEnd oldText newText ->
  shiftIndex oldText newText i
  = Z.min (newMidStart oldText newText + (i - oldMidStart oldText newText))
          (newMidEnd oldText newText)
  /\ newMidStart oldText newText <= shiftIndex oldText newText i
     <= newMidEnd oldText newText.
Proof.
  intros Hi. pose proof (mid_regions oldText newText) as Hm.
  rewrite (shiftIndex_inside oldText newText i Hi).
  unfold newMidStart, oldMidStart in *. lia.
Qed.

Lemma shiftIndex_inside_clamped_witness :
  oldMidStart (str "aXYZb") (str "aPQRSTb") < 2
    < oldMidEnd (str "aXYZb") (str "aPQRSTb")
  /\ shiftIndex (str "aXYZb") (str "aPQRSTb") 2 = 2.
Proof.
  split; [vm_compute; split; reflexivity|].
  refine (eq_trans
    (proj1 (shiftIndex_inside_clamped (str "aXYZb") (str "aPQRSTb") 2 _)) _).
  - vm_compute. split; reflexivity.
  - reflexivity.
Defined.

(** C3, as it is worded, fails: in ["aXYZb"] edited to ["aPQRSTb"] the old
    edited region is [[1, 4)], the new one [[1, 6)], and offset [2] is mapped
    to [2], which is neither [newMidStart] nor [newMidEnd]. *)
Lemma shiftIndex_inside_not_pinned :
  oldMidStart (str "aXYZb") (str "aPQRSTb") < 2
    < oldMidEnd (str "aXYZb") (str "aPQRSTb")
  /\ ~ (shiftIndex (str "aXYZb") (str "aPQRSTb") 2
        = newMidStart (str "aXYZb") (str "aPQRSTb")
        \/ shiftIndex (str "aXYZb") (str "aPQRSTb") 2
           = newMidEnd (str "aXYZb") (str "aPQRSTb")).
Proof.
  split; [vm_compute; split; reflexivity|].
  vm_compute. intros [H|H]; discriminate.
Qed.

(** ** Reconciler: an unchanged buffer *)

Lemma commonPrefix_same (t : text) : commonPrefix t t = len t.
Proof.
  destruct (commonPrefix_exit t t) as [H|[H|H]]; auto. now contradiction H.
Qed.

Lemma shiftIndex_same (t : text) (i : Z) : shiftIndex t t i = i.
Proof.
  pose proof (mid_regions t t) as Hm.
  pose proof (commonSuffix_bounds t t) as Hs.
  unfold shiftIndex.
  destruct (i <=? _) eqn:H1; [reflexivity|].
  destruct (i >=? _) eqn:H2; [lia|].
  apply Z.leb_gt in H1. rewrite Z.geb_leb in H2. apply Z.leb_gt in H2.
  revert H1 H2. unfold oldMidStart, oldMidEnd in *.
  rewrite commonPrefix_same in *. lia.
Qed.

Lemma shiftHighlight_same (t : text) (h : Highlight) :
  inRange t h ->
  exists h', shiftHighlight t t h = Some h' /\ entity h' = entity h.
Proof.
  unfold inRange, shiftHighlight. intros Hr.
  rewrite !shiftIndex_same.
  replace (Z.min (hl_start h) (hl_end h)) with (hl_start h) by lia.
  replace (Z.max (hl_start h) (hl_end h)) with (hl_end h) by lia.
  rewrite !clamp_id by lia.
  destruct (_ <=? _) eqn:Hle; [apply Z.leb_le in Hle; lia|].
  eexists. split; reflexivity.
Qed.

(** C10. Reconciling against an unchanged buffer returns, for a highlight
    list within the bounds of the text, one highlight per input highlight, in
    the same order, with the same identity, [start] and [end]. *)
Theorem reconcile_same_text (t : text) (highlights : list Highlight) :
  Forall (inRange t) highlights ->
  map entity (reconcileHighlightsAfterEdit t t highlights)
  = map entity highlights.
Proof.
  unfold reconcileHighlightsAfterEdit.
  induction 1 as [|h r Hh _ IH]; [reflexivity|].
  destruct (shiftHighlight_same t h Hh) as [h' [Hs He]].
  simpl. rewrite Hs. simpl. now rewrite He, IH.
Qed.

Lemma reconcile_same_text_witness :
  map entity
      (reconcileHighlightsAfterEdit (str "Hello world") (str "Hello world")
         [hl "h1" 1 pink 0 5; hl "h2" 2 blue 3 11])
  = map entity [hl "h1" 1 pink 0 5; hl "h2" 2 blue 3 11].
Proof.
  apply (reconcile_same_text (str "Hello world")).
  repeat constructor; vm_compute; intro; discriminate.
Defined.

(** ** Reconciler: the scenarios of the specification *)

(** Inserting ["XY"] in front of ["ABCDEFGHIJ"] moves [[2, 5)] to
    [[4, 7)], still ["CDE"]. *)
Example reconcile_basic_edit_shift :
  map (fun h => (span h, a_text (hl_anchor h)))
      (reconcileHighlightsAfterEdit (str "ABCDEFGHIJ") (str "XYABCDEFGHIJ")
         [hl "h1" 1 pink 2 5])
  = [ ((4, 7), str "CDE") ].
Proof. reflexivity. Qed.

(** Changing ["Hello"] to ["Hi"] under the highlight [[0, 5)] leaves
    [[0, 2)]. *)
Example reconcile_edit_inside_highlight :
  map (fun h => (span h, a_text (hl_anchor h)))
      (reconcileHighlightsAfterEdit (str "Hello world") (str "Hi world")
         [hl "h1" 1 pink 0 5])
  = [ ((0, 2), str "Hi") ].
Proof. reflexivity. Qed.

(** ** Reconciler: highlights outside the edit *)

Lemma slice_in_range (t : text) (a b : Z) :
  0 <= a -> a <= b -> b <= len t ->
  slice t a b = firstn (Z.to_nat (b - a)) (skipn (Z.to_nat a) t).
Proof.
  intros Ha Hab Hb. unfold slice.
  destruct (a <? 0) eqn:H1; [apply Z.ltb_lt in H1; lia|].
  destruct (b <? 0) eqn:H2; [apply Z.ltb_lt in H2; lia|].
  now rewrite !Z.min_l by lia.
Qed.

Lemma slice_ext (t u : text) (a b a' b' : Z) :
  0 <= a -> a <= b -> b <= len t ->
  0 <= a' -> a' <= b' -> b' <= len u ->
  b - a = b' - a' ->
  (forall k, 0 <= k < b - a -> charAt t (a + k) = charAt u (a' + k)) ->
  slice t a b = slice u a' b'.
Proof.
  intros Ha Hab Hb Ha' Hab' Hb' Hlen Hk.
  rewrite !slice_in_range by assumption. rewrite <- Hlen.
  apply nth_error_ext. intro n.
  rewrite !nth_error_firstn, !nth_error_skipn.
  destruct (n <? Z.to_nat (b - a))%nat eqn:Hn; [|reflexivity].
  apply Nat.ltb_lt in Hn.
  specialize (Hk (Z.of_nat n)). unfold charAt in Hk.
  destruct (a + Z.of_nat n <? 0) eqn:H1; [apply Z.ltb_lt in H1; lia|].
  destruct (a' + Z.of_nat n <? 0) eqn:H2; [apply Z.ltb_lt in H2; lia|].
  replace (Z.to_nat (a + Z.of_nat n)) with (Z.to_nat a + n)%nat in Hk by lia.
  replace (Z.to_nat (a' + Z.of_nat n)) with (Z.to_nat a' + n)%nat in Hk
    by lia.
  apply Hk. lia.
Qed.

Lemma len_app (t u : text) : len (t ++ u) = len t + len u.
Proof. unfold len. rewrite length_app. lia. Qed.

Lemma charAt_app_l (t u : text) (i : Z) :
  0 <= i < len t -> charAt (t ++ u) i = charAt t i.
Proof.
  unfold charAt, len. intros Hi.
  destruct (i <? 0); [reflexivity|].
  apply nth_error_app1. lia.
Qed.

Lemma charAt_app_r (t u : text) (j : Z) :
  0 <= j < len u ->
  charAt (t ++ u) (len (t ++ u) - 1 - j) = charAt u (len u - 1 - j).
Proof.
  intros Hj. rewrite len_app. unfold charAt, len in *.
  destruct (_ <? 0) eqn:H1; [apply Z.ltb_lt in H1; lia|].
  destruct (Z.of_nat (length u) - 1 - j <? 0) eqn:H2;
    [apply Z.ltb_lt in H2; lia|].
  rewrite nth_error_app2 by lia. f_equal. lia.
Qed.

(** A highlight that ends within the common prefix keeps its offsets and its
    text. *)
Lemma shiftHighlight_in_prefix (oldText newText : text) (h : Highlight) :
  inRange oldText h ->
  hl_end h <= commonPrefix oldText newText ->
  exists h',
    shiftHighlight oldText newText h = Some h'
    /\ entity h' = entity h
    /\ spanText newText h' = spanText oldText h.
Proof.
  intros (H0 & H1 & H2) Hp.
  pose proof (commonPrefix_bounds oldText newText) as Hb.
  unfold shiftHighlight.
  assert (Hs : forall i, i <= commonPrefix oldText newText ->
                         shiftIndex oldText newText i = i).
  { intros i Hi. unfold shiftIndex, oldMidStart.
    destruct (i <=? _) eqn:E; [reflexivity|]. apply Z.leb_gt in E. lia. }
  rewrite !Hs by lia.
  replace (Z.min (hl_start h) (hl_end h)) with (hl_start h) by lia.
  replace (Z.max (hl_start h) (hl_end h)) with (hl_end h) by lia.
  rewrite !clamp_id by lia.
  destruct (_ <=? _) eqn:Hle; [apply Z.leb_le in Hle; lia|].
  eexists. split; [reflexivity|]. split; [reflexivity|].
  unfold spanText. simpl.
  apply slice_ext; try lia.
  intros k Hk. symmetry. apply commonPrefix_match. lia.
Qed.

(** A highlight that starts behind the common prefix and at or behind the
    old edited region is moved by the change of length and keeps its text. *)
Lemma shiftHighlight_in_suffix (oldText newText : text) (h : Highlight) :
  inRange oldText h ->
  commonPrefix oldText newText < hl_start h ->
  oldMidEnd oldText newText <= hl_start h ->
  exists h',
    shiftHighlight oldText newText h = Some h'
    /\ hl_id h' = hl_id h /\ hl_createdAt h' = hl_createdAt h
    /\ hl_color h' = hl_color h
    /\ hl_start h' = hl_start h + (len newText - len oldText)
    /\ hl_end h' = hl_end h + (len newText - len oldText)
    /\ spanText newText h' = spanText oldText h.
Proof.
  intros (H0 & H1 & H2) Hp He.
  pose proof (mid_regions oldText newText)
    as (Hm1 & Hm2 & Hm3 & Hm4 & Hd).
  unfold shiftHighlight.
  assert (Hs : forall i, hl_start h <= i ->
                 shiftIndex oldText newText i
                 = i + (len newText - len oldText)).
  { intros i Hi. unfold shiftIndex. unfold oldMidStart in *.
    destruct (i <=? _) eqn:E1; [apply Z.leb_le in E1; lia|].
    destruct (i >=? _) eqn:E2; [lia|].
    rewrite Z.geb_leb in E2. apply Z.leb_gt in E2. lia. }
  rewrite !Hs by lia.
  assert (Hlo : 0 <= hl_start h + (len newText - len oldText)).
  { unfold oldMidEnd, newMidEnd, newMidStart in *. lia. }
  rewrite Z.min_l, Z.max_r by lia.
  rewrite !clamp_id by lia.
  destruct (_ <=? _) eqn:Hle; [apply Z.leb_le in Hle; lia|].
  eexists. repeat (split; [reflexivity|]).
  unfold spanText. simpl.
  apply slice_ext; try lia.
  intros k Hk.
  pose proof (commonSuffix_match oldText newText
                (len oldText - 1 - (hl_start h + k))) as Hmatch.
  replace (len oldText - 1 - (len oldText - 1 - (hl_start h + k)))
    with (hl_start h + k) in Hmatch by lia.
  replace (len newText - 1 - (len oldText - 1 - (hl_start h + k)))
    with (hl_start h + (len newText - len oldText) + k) in Hmatch by lia.
  symmetry. apply Hmatch. unfold oldMidEnd in He. lia.
Qed.

(** The common prefix of [A ++ X] and [A ++ Y] covers [A]. *)
Lemma commonPrefix_app (A X Y : text) :
  len A <= commonPrefix (A ++ X) (A ++ Y).
Proof.
  pose proof (len_nonneg X). pose proof (len_nonneg Y).
  pose proof (commonPrefix_bounds (A ++ X) (A ++ Y)) as Hb.
  destruct (commonPrefix_exit (A ++ X) (A ++ Y)) as [H1|[H1|H1]];
    rewrite ?len_app in H1; try lia.
  destruct (Z_lt_le_dec (commonPrefix (A ++ X) (A ++ Y)) (len A)) as [Hlt|];
    [|assumption].
  contradiction H1. rewrite !charAt_app_l by lia. reflexivity.
Qed.

(** The old edited region of [X ++ C] against [Y ++ C] ends before [C],
    unless the suffix loop ran into the prefix. *)
Lemma oldMidEnd_app (X Y C : text) :
  let p := commonPrefix (X ++ C) (Y ++ C) in
  oldMidEnd (X ++ C) (Y ++ C) <= len X
  \/ oldMidEnd (X ++ C) (Y ++ C) = p
  \/ oldMidEnd (X ++ C) (Y ++ C) = p - (len Y - len X).
Proof.
  intros p. unfold oldMidEnd. fold p.
  pose proof (commonSuffix_bounds (X ++ C) (Y ++ C)) as Hb. fold p in Hb.
  destruct (commonSuffix_exit (X ++ C) (Y ++ C)) as [H1|[H1|H1]];
    fold p in H1; rewrite ?len_app in *; try lia.
  left.
  destruct (Z_lt_le_dec (commonSuffix (X ++ C) (Y ++ C) p) (len C))
    as [Hlt|]; [|lia].
  contradiction H1. rewrite <- !len_app. rewrite !charAt_app_r by lia.
  reflexivity.
Qed.

Lemma In_reconcile (oldText newText : text) (hs : list Highlight)
  (h h' : Highlight) :
  In h hs -> shiftHighlight oldText newText h = Some h' ->
  In h' (reconcileHighlightsAfterEdit oldText newText hs).
Proof.
  intros Hin Hs. unfold reconcileHighlightsAfterEdit.
  apply In_dropNulls. rewrite <- Hs. now apply in_map.
Qed.

(** C2, as the code has it.  Let the edit replace [B] by [R] between [A] and
    [C].  A highlight of the old text that ends at or before the edit
    ([end <= |A|]) is returned with its span text unchanged.  A highlight
    that starts at or behind the edit ([|A| + |B| <= start]) is returned
    with its span text unchanged provided the common prefix [p] that the
    reconciler finds ends before the highlight, in the old text
    ([p < start]) and in the new one ([p <= start + |R| - |B|]). *)
Theorem reconcile_preserves_outside
  (A B R C : text) (oldHighlights : list Highlight) (h : Highlight) :
  let oldText := A ++ B ++ C in
  let newText := A ++ R ++ C in
  In h oldHighlights ->
  inRange oldText h ->
  hl_end h <= len A
  \/ (len A + len B <= hl_start h
      /\ commonPrefix oldText newText < hl_start h
      /\ commonPrefix oldText newText <= hl_start h + (len R - len B)) ->
  exists h',
    In h' (reconcileHighlightsAfterEdit oldText newText oldHighlights)
    /\ hl_id h' = hl_id h
    /\ hl_createdAt h' = hl_createdAt h
    /\ hl_color h' = hl_color h
    /\ spanText newText h' = spanText oldText h.
Proof.
  intros oldText newText Hin Hr [Hbefore|(Hafter & Hp1 & Hp2)].
  - destruct (shiftHighlight_in_prefix oldText newText h Hr)
      as (h' & Hs & He & Ht).
    { pose proof (commonPrefix_app A (B ++ C) (R ++ C)).
      subst oldText newText. lia. }
    exists h'. split; [exact (In_reconcile _ _ _ _ _ Hin Hs)|].
    unfold entity in He. injection He as -> -> -> _ _. auto.
  - destruct (shiftHighlight_in_suffix oldText newText h Hr Hp1)
      as (h' & Hs & Hi & Hc & Hk & _ & _ & Ht).
    { subst oldText newText. rewrite !app_assoc in *.
      pose proof (oldMidEnd_app (A ++ B) (A ++ R) C) as Hm. simpl in Hm.
      rewrite !len_app in Hm. lia. }
    exists h'. split; [exact (In_reconcile _ _ _ _ _ Hin Hs)|]. auto.
Qed.

Lemma reconcile_preserves_outside_witness :
  exists h',
    In h' (reconcileHighlightsAfterEdit
             (str "ab" ++ str "cd" ++ str "efgh")
             (str "ab" ++ str "XYZ" ++ str "efgh")
             [hl "h1" 1 pink 0 2; hl "h2" 2 blue 5 7])
    /\ hl_id h' = "h2"%string
    /\ hl_createdAt h' = 2
    /\ hl_color h' = blue
    /\ spanText (str "ab" ++ str "XYZ" ++ str "efgh") h' = str "fg".
Proof.
  apply (reconcile_preserves_outside (str "ab") (str "cd") (str "XYZ")
           (str "efgh") [hl "h1" 1 pink 0 2; hl "h2" 2 blue 5 7]
           (hl "h2" 2 blue 5 7)).
  - simpl. right. left. reflexivity.
  - vm_compute. repeat split; intro; discriminate.
  - right. vm_compute. repeat split; intro; discriminate.
Defined.

(** C2, as it is worded, fails.  Inserting ["a"] at offset [0] of ["aab"]
    is an edit of the empty region [[0, 0)], strictly before the highlight
    [[1, 3)] (["ab"]).  The reconciler finds the common prefix ["aa"] and
    takes the insertion to be at offset [2]: the highlight comes back as
    [[1, 4)], whose text in ["aaab"] is ["aab"]. *)
Lemma reconcile_edit_before_changes_text :
  let oldText := str "" ++ str "" ++ str "aab" in
  let newText := str "" ++ str "a" ++ str "aab" in
  let h := hl "h1" 1 pink 1 3 in
  inRange oldText h
  /\ len (str "") + len (str "") < hl_start h
  /\ spanText oldText h = str "ab"
  /\ map span (reconcileHighlightsAfterEdit oldText newText [h]) = [(1, 4)]
  /\ ~ exists h',
         In h' (reconcileHighlightsAfterEdit oldText newText [h])
         /\ spanText newText h' = spanText oldText h.
Proof.
  cbv zeta.
  split; [vm_compute; repeat split; intro; discriminate|].
  split; [reflexivity|].
  split; [reflexivity|].
  split; [reflexivity|].
  intros (h' & Hin & Ht). vm_compute in Hin.
  destruct Hin as [<-|[]]. vm_compute in Ht. discriminate.
Qed.

(** ** Merge engine: helpers *)

Lemma color_eqb_eq (c d : HighlightColor) : color_eqb c d = true <-> c = d.
Proof. destruct c, d; simpl; split; intro H; congruence. Qed.

Lemma minOf_spec (s : Z) (xs : list Z) :
  minOf s xs <= s
  /\ (forall x, In x xs -> minOf s xs <= x)
  /\ (minOf s xs = s \/ In (minOf s xs) xs).
Proof.
  unfold minOf. revert s. induction xs as [|x r IH]; intro s; simpl.
  - split; [lia|]. split; [contradiction|]. now left.
  - destruct (IH (Z.min s x)) as (H1 & H2 & H3).
    split; [lia|]. split.
    + intros y [<-|Hy]; [lia|auto].
    + destruct H3 as [H3|H3]; [|auto].
      destruct (Z.min_spec s x) as [[_ E]|[_ E]]; rewrite E in H3;
        [left|right; left]; congruence.
Qed.

Lemma maxOf_spec (e : Z) (xs : list Z) :
  e <= maxOf e xs
  /\ (forall x, In x xs -> x <= maxOf e xs)
  /\ (maxOf e xs = e \/ In (maxOf e xs) xs).
Proof.
  unfold maxOf. revert e. induction xs as [|x r IH]; intro e; simpl.
  - split; [lia|]. split; [contradiction|]. now left.
  - destruct (IH (Z.max e x)) as (H1 & H2 & H3).
    split; [lia|]. split.
    + intros y [<-|Hy]; [lia|auto].
    + destruct H3 as [H3|H3]; [|auto].
      destruct (Z.max_spec e x) as [[_ E]|[_ E]]; rewrite E in H3;
        [right; left|left]; congruence.
Qed.

(** [applyHighlight], path by path. *)
Lemma applyHighlight_unfold (t : text) (existing : list Highlight)
  (start end_ : Z) (c : HighlightColor) (newId : string) (now : Z) :
  let s := clampedStart t start end_ in
  let e2 := clampedEnd t start end_ in
  applyHighlight t existing start end_ c newId now
  = if e2 <=? s then existing
    else if alreadyExists existing s e2 c then existing
    else sortBy cmpStartEnd
           (filter (isKept c s e2) existing
            ++ [mergedHighlight t existing s e2 c newId now]).
Proof.
  cbv zeta. unfold applyHighlight, clampedStart, clampedEnd, alreadyExists,
    mergedHighlight.
  destruct (_ <=? _); [reflexivity|].
  destruct (existsb _ _); [reflexivity|].
  destruct (filter (isSameColorOverlap _ _ _) existing); reflexivity.
Qed.

Lemma mergedHighlight_range (t : text) (existing : list Highlight)
  (s e2 : Z) (c : HighlightColor) (newId : string) (now : Z) :
  let m := mergedHighlight t existing s e2 c newId now in
  hl_color m = c /\ hl_start m <= s /\ e2 <= hl_end m
  /\ (hl_start m = s
      \/ exists o, In o existing /\ isSameColorOverlap c s e2 o = true
                   /\ hl_start m = hl_start o)
  /\ (hl_end m = e2
      \/ exists o, In o existing /\ isSameColorOverlap c s e2 o = true
                   /\ hl_end m = hl_end o).
Proof.
  cbv zeta. unfold mergedHighlight. simpl.
  set (ov := filter _ existing).
  destruct (minOf_spec s (map hl_start ov)) as (H1 & _ & H3).
  destruct (maxOf_spec e2 (map hl_end ov)) as (H4 & _ & H6).
  repeat split; try assumption.
  - destruct H3 as [H3|H3]; [now left|right].
    apply in_map_iff in H3 as (o & Ho & Hin).
    apply filter_In in Hin as [Hin Hov]. eauto.
  - destruct H6 as [H6|H6]; [now left|right].
    apply in_map_iff in H6 as (o & Ho & Hin).
    apply filter_In in Hin as [Hin Hov]. eauto.
Qed.

Lemma isSameColorOverlap_inv (c : HighlightColor) (s e2 : Z)
  (h : Highlight) :
  isSameColorOverlap c s e2 h = true <->
  hl_color h = c /\ s < hl_end h /\ hl_start h < e2.
Proof.
  unfold isSameColorOverlap.
  rewrite andb_true_iff, color_eqb_eq, negb_true_iff, orb_false_iff.
  rewrite Z.geb_leb, !Z.leb_gt. tauto.
Qed.

Lemma isKept_inv (c : HighlightColor) (s e2 : Z) (h : Highlight) :
  isKept c s e2 h = true <->
  hl_color h <> c \/ hl_end h <= s \/ e2 <= hl_start h.
Proof.
  unfold isKept.
  destruct (color_eqb (hl_color h) c) eqn:E; simpl.
  - apply color_eqb_eq in E.
    rewrite orb_true_iff, Z.geb_leb, !Z.leb_le. tauto.
  - split; [|reflexivity]. intros _. left. intro Hc.
    apply color_eqb_eq in Hc. congruence.
Qed.

(** ** Merge engine: the scenarios of the specification *)

(** Two pink highlights [[0, 10)] and [[20, 30)] and the pink request
    [[8, 22)] give the one pink highlight [[0, 30)]. *)
Example applyHighlight_union :
  map entity
      (applyHighlight (str "0123456789012345678901234567890123456789")
         [hl "h1" 1 pink 0 10; hl "h2" 2 pink 20 30] 8 22 pink "h3" 3)
  = [ ("h3"%string, 3, pink, 0, 30) ].
Proof. reflexivity. Qed.

(** A pink request over the exact range of a blue highlight adds a pink
    highlight next to the blue one. *)
Example applyHighlight_color_independence :
  map entity
      (applyHighlight (str "0123456789") [hl "h1" 1 blue 2 5]
                      2 5 pink "h2" 2)
  = [ ("h1"%string, 1, blue, 2, 5); ("h2"%string, 2, pink, 2, 5) ].
Proof. reflexivity. Qed.

(** ** Merge engine: adjacent ranges *)

(** C4 at a concrete request.  On a transcript of ten characters with one
    pink highlight [[0, 5)], the pink request [[5, 10)] touches the existing
    highlight at offset [5]; the result holds both highlights, not the one
    highlight [[0, 10)]. *)
Theorem applyHighlight_adjacent_not_merged :
  map entity
      (applyHighlight (str "0123456789") [hl "h1" 1 pink 0 5]
                      5 10 pink "h2" 2)
  = [ ("h1"%string, 1, pink, 0, 5); ("h2"%string, 2, pink, 5, 10) ].
Proof. reflexivity. Qed.

(** ** Merge engine: other colors *)

(** C6. A highlight whose color differs from the requested one is an
    element of the result as it is, with all of its fields, whether or not
    its range overlaps the request. *)
Theorem applyHighlight_other_colors
  (t : text) (existing : list Highlight) (start end_ : Z)
  (chosenColor : HighlightColor) (newId : string) (now : Z)
  (h : Highlight) :
  In h existing ->
  hl_color h <> chosenColor ->
  In h (applyHighlight t existing start end_ chosenColor newId now).
Proof.
  intros Hin Hc. rewrite applyHighlight_unfold. cbv zeta.
  destruct (_ <=? _); [assumption|].
  destruct (alreadyExists _ _ _ _); [assumption|].
  apply In_sortBy. apply in_or_app. left.
  apply filter_In. split; [assumption|].
  apply isKept_inv. now left.
Qed.

Lemma applyHighlight_other_colors_witness :
  In (hl "h1" 1 blue 2 5)
     (applyHighlight (str "0123456789") [hl "h1" 1 blue 2 5]
                     2 5 pink "h2" 2).
Proof.
  apply applyHighlight_other_colors.
  - left. reflexivity.
  - discriminate.
Defined.

(** ** Merge engine: same-color highlights stay disjoint *)

(** [overlap] says that the half-open ranges share an offset. *)
Lemma overlap_shared_offset (a b : Highlight) :
  overlap a b <->
  exists x, (hl_start a <= x /\ x < hl_end a)
            /\ (hl_start b <= x /\ x < hl_end b).
Proof.
  unfold overlap. split.
  - intros H. exists (Z.max (hl_start a) (hl_start b)). lia.
  - intros (x & Ha & Hb). lia.
Qed.

Lemma sameColorDisjoint_sym (a b : Highlight) :
  sameColorDisjoint a b -> sameColorDisjoint b a.
Proof.
  unfold sameColorDisjoint, overlap. intros H Hc Ho.
  apply H; [congruence|lia].
Qed.

Lemma merged_disjoint_from_kept (t : text) (existing : list Highlight)
  (s e2 : Z) (c : HighlightColor) (newId : string) (now : Z)
  (k : Highlight) :
  s < e2 ->
  noSameColorOverlap existing ->
  In k existing ->
  isKept c s e2 k = true ->
  sameColorDisjoint (mergedHighlight t existing s e2 c newId now) k.
Proof.
  intros Hse Hinv Hk Hkept Hcol Hov.
  destruct (mergedHighlight_range t existing s e2 c newId now)
    as (Hc & Hs & He & Hs' & He').
  set (m := mergedHighlight t existing s e2 c newId now) in *.
  apply isKept_inv in Hkept as [Hne|Hside]; [congruence|].
  unfold overlap in Hov.
  assert (Hclash : forall o, In o existing ->
                     isSameColorOverlap c s e2 o = true ->
                     overlap o k -> False).
  { intros o Ho Hoo Hok.
    apply isSameColorOverlap_inv in Hoo as (Hoc & Ho1 & Ho2).
    assert (Hneq : o <> k) by (intros ->; lia).
    apply (pairs_In sameColorDisjoint sameColorDisjoint_sym
             existing o k Hinv Ho Hk Hneq); [congruence|exact Hok]. }
  destruct Hside as [Hleft|Hright].
  - destruct Hs' as [Hs'|(o & Ho & Hoo & Hos)]; [lia|].
    apply (Hclash o Ho Hoo).
    apply isSameColorOverlap_inv in Hoo as (_ & Ho1 & Ho2).
    unfold overlap. lia.
  - destruct He' as [He'|(o & Ho & Hoo & Hoe)]; [lia|].
    apply (Hclash o Ho Hoo).
    apply isSameColorOverlap_inv in Hoo as (_ & Ho1 & Ho2).
    unfold overlap. lia.
Qed.

(** C9. When no two same-color highlights of the input overlap, no two
    same-color highlights of the result of [applyHighlight] overlap. *)
Theorem applyHighlight_keeps_disjoint
  (t : text) (existing : list Highlight) (start end_ : Z)
  (chosenColor : HighlightColor) (newId : string) (now : Z) :
  noSameColorOverlap existing ->
  noSameColorOverlap
    (applyHighlight t existing start end_ chosenColor newId now).
Proof.
  intros Hinv. rewrite applyHighlight_unfold. cbv zeta.
  destruct (_ <=? _) eqn:E1; [assumption|].
  destruct (alreadyExists _ _ _ _); [assumption|].
  apply Z.leb_gt in E1.
  apply (pairs_sortBy _ _ sameColorDisjoint_sym).
  apply (pairs_snoc _ sameColorDisjoint_sym).
  - now apply pairs_filter.
  - apply Forall_forall. intros k Hk. apply filter_In in Hk as [Hk Hkept].
    now apply merged_disjoint_from_kept.
Qed.

Lemma applyHighlight_keeps_disjoint_witness :
  noSameColorOverlap
    (applyHighlight (str "0123456789012345678901234567890123456789")
       [hl "h1" 1 pink 0 10; hl "h2" 2 pink 20 30; hl "h3" 3 blue 5 25]
       8 22 pink "h4" 4).
Proof.
  apply applyHighlight_keeps_disjoint.
  repeat constructor; unfold sameColorDisjoint, overlap; simpl;
    intros; try discriminate; lia.
Defined.

(** ** Merge engine: applying a request twice *)

Lemma cmpStartEnd_trans (a b c : Highlight) :
  cmpStartEnd a b <= 0 -> cmpStartEnd b c <= 0 -> cmpStartEnd a c <= 0.
Proof.
  unfold cmpStartEnd.
  destruct (Z.eqb_spec (hl_start a) (hl_start b)),
           (Z.eqb_spec (hl_start b) (hl_start c)),
           (Z.eqb_spec (hl_start a) (hl_start c)); simpl; lia.
Qed.

Lemma cmpStartEnd_total (a b : Highlight) :
  0 <= cmpStartEnd a b -> cmpStartEnd b a <= 0.
Proof.
  unfold cmpStartEnd.
  destruct (Z.eqb_spec (hl_start a) (hl_start b)),
           (Z.eqb_spec (hl_start b) (hl_start a)); simpl; lia.
Qed.

Lemma cmpStartEnd_asym (a b : Highlight) :
  cmpStartEnd a b < 0 -> 0 < cmpStartEnd b a.
Proof.
  unfold cmpStartEnd.
  destruct (Z.eqb_spec (hl_start a) (hl_start b)),
           (Z.eqb_spec (hl_start b) (hl_start a)); simpl; lia.
Qed.

Lemma filter_all {A : Type} (f : A -> bool) (l : list A) :
  (forall x, In x l -> f x = true) -> filter f l = l.
Proof.
  induction l as [|x r IH]; intros H; simpl; [reflexivity|].
  rewrite (H x (or_introl eq_refl)), IH; [reflexivity|].
  intros y Hy. apply H. now right.
Qed.

Lemma filter_none {A : Type} (f : A -> bool) (l : list A) :
  (forall x, In x l -> f x = false) -> filter f l = [].
Proof.
  induction l as [|x r IH]; intros H; simpl; [reflexivity|].
  rewrite (H x (or_introl eq_refl)), IH; [reflexivity|].
  intros y Hy. apply H. now right.
Qed.

Lemma isKept_not_overlap (c : HighlightColor) (s e2 : Z) (h : Highlight) :
  isKept c s e2 h = true -> isSameColorOverlap c s e2 h = false.
Proof.
  intros Hk. apply isKept_inv in Hk.
  destruct (isSameColorOverlap c s e2 h) eqn:E; [|reflexivity].
  apply isSameColorOverlap_inv in E as (E1 & E2 & E3).
  destruct Hk as [Hk|[Hk|Hk]]; [congruence|lia|lia].
Qed.

Lemma alreadyExists_In (l : list Highlight) (s e2 : Z)
  (c : HighlightColor) (h : Highlight) :
  In h l -> hl_start h = s -> hl_end h = e2 -> hl_color h = c ->
  alreadyExists l s e2 c = true.
Proof.
  intros Hin Hs He Hc. unfold alreadyExists.
  apply existsb_exists. exists h. split; [assumption|].
  rewrite Hs, He, Hc, !Z.eqb_refl. simpl. now apply color_eqb_eq.
Qed.

(** The second application on the merge path: the highlight the first one
    added is the only same-color overlap, and it is made anew. *)
Lemma applyHighlight_again (t : text) (existing : list Highlight)
  (s e2 : Z) (c : HighlightColor) (id1 id2 : string) (now1 now2 : Z) :
  s < e2 ->
  let m := mergedHighlight t existing s e2 c id1 now1 in
  let once := sortBy cmpStartEnd (filter (isKept c s e2) existing ++ [m]) in
  exists l1 l2,
    once = l1 ++ m :: l2
    /\ sortBy cmpStartEnd
         (filter (isKept c s e2) once
          ++ [mergedHighlight t once s e2 c id2 now2])
       = l1 ++ refresh id2 now2 m :: l2.
Proof.
  intros Hse m once.
  destruct (mergedHighlight_range t existing s e2 c id1 now1)
    as (Hc & Hs & He & _ & _). fold m in Hc, Hs, He.
  assert (Hanchor : hl_anchor m = anchorAt t (hl_start m) (hl_end m))
    by reflexivity.
  set (K := sortBy cmpStartEnd (filter (isKept c s e2) existing)).
  assert (Honce : once = insertLast cmpStartEnd m K)
    by (unfold once; apply sortBy_snoc).
  assert (HK : forall y, In y K -> isKept c s e2 y = true).
  { intros y Hy. unfold K in Hy. rewrite In_sortBy in Hy.
    now apply filter_In in Hy. }
  assert (Hmk : isKept c s e2 m = false).
  { destruct (isKept c s e2 m) eqn:E; [|reflexivity].
    apply isKept_inv in E as [E|[E|E]]; [congruence|lia|lia]. }
  assert (Hmo : isSameColorOverlap c s e2 m = true).
  { apply isSameColorOverlap_inv. split; [assumption|lia]. }
  assert (Hsorted : StronglySorted (cmpLe cmpStartEnd) K)
    by apply (sortBy_sorted cmpStartEnd cmpStartEnd_trans cmpStartEnd_total).
  destruct (insertLast_split cmpStartEnd m K) as (l1 & l2 & HKs & Hsplit).
  exists l1, l2.
  assert (Honce' : once = l1 ++ m :: l2).
  { rewrite Honce. apply Hsplit. reflexivity. }
  split; [exact Honce'|].
  clearbody m once K.
  assert (Hl1 : forall y, In y l1 -> isKept c s e2 y = true)
    by (intros y Hy; apply HK; rewrite HKs; apply in_or_app; now left).
  assert (Hl2 : forall y, In y l2 -> isKept c s e2 y = true)
    by (intros y Hy; apply HK; rewrite HKs; apply in_or_app; now right).
  assert (Hkeep : filter (isKept c s e2) once = K).
  { rewrite Honce', filter_app. simpl. rewrite Hmk.
    rewrite (filter_all _ l1 Hl1), (filter_all _ l2 Hl2). now symmetry. }
  assert (Hov : filter (isSameColorOverlap c s e2) once = [m]).
  { rewrite Honce', filter_app. simpl. rewrite Hmo.
    rewrite (filter_none _ l1), (filter_none _ l2); [reflexivity| |];
      intros y Hy; apply isKept_not_overlap; auto. }
  assert (Hm' : mergedHighlight t once s e2 c id2 now2 = refresh id2 now2 m).
  { unfold mergedHighlight, refresh. rewrite Hov. simpl.
    unfold minOf, maxOf. simpl.
    rewrite Z.min_r, Z.max_r by lia. rewrite Hanchor, Hc. reflexivity. }
  rewrite Hkeep, Hm', sortBy_snoc.
  rewrite (sortBy_sorted_id cmpStartEnd cmpStartEnd_asym K Hsorted).
  apply Hsplit. intros y _. reflexivity.
Qed.

(** C5, as the code has it.  Applying the same request a second time either
    leaves the highlights exactly as the first application left them, or
    replaces the one highlight [m] that covers the request by a copy with a
    fresh [id] and [createdAt]; ranges, colors, anchors and order are the
    same.  The highlights are exactly the same whenever no same-color
    highlight of the input reaches beyond the request. *)
Theorem applyHighlight_twice
  (t : text) (existing : list Highlight) (start end_ : Z)
  (chosenColor : HighlightColor) (id1 id2 : string) (now1 now2 : Z) :
  let s := clampedStart t start end_ in
  let e2 := clampedEnd t start end_ in
  let once := applyHighlight t existing start end_ chosenColor id1 now1 in
  let twice := applyHighlight t once start end_ chosenColor id2 now2 in
  (twice = once
   \/ exists l1 m l2,
        once = l1 ++ m :: l2
        /\ twice = l1 ++ refresh id2 now2 m :: l2
        /\ hl_color m = chosenColor /\ hl_start m <= s /\ e2 <= hl_end m)
  /\ ((forall h, In h existing ->
                 isSameColorOverlap chosenColor s e2 h = true ->
                 s <= hl_start h /\ hl_end h <= e2) ->
      twice = once).
Proof.
  intros s e2 once twice. subst once twice.
  rewrite (applyHighlight_unfold t existing). cbv zeta. fold s e2.
  destruct (e2 <=? s) eqn:E1.
  { rewrite applyHighlight_unfold. cbv zeta. fold s e2. rewrite E1. auto. }
  destruct (alreadyExists existing s e2 chosenColor) eqn:E2.
  { rewrite applyHighlight_unfold. cbv zeta. fold s e2. rewrite E1, E2.
    auto. }
  rewrite applyHighlight_unfold. cbv zeta. fold s e2. rewrite E1.
  apply Z.leb_gt in E1.
  destruct (mergedHighlight_range t existing s e2 chosenColor id1 now1)
    as (Hc & Hs & He & Hs' & He').
  destruct (alreadyExists
              (sortBy cmpStartEnd
                 (filter (isKept chosenColor s e2) existing
                  ++ [mergedHighlight t existing s e2 chosenColor id1 now1]))
              s e2 chosenColor) eqn:E3; [auto|].
  split.
  - right.
    destruct (applyHighlight_again t existing s e2 chosenColor
                id1 id2 now1 now2 E1) as (l1 & l2 & H1 & H2).
    exists l1, (mergedHighlight t existing s e2 chosenColor id1 now1), l2.
    split; [exact H1|]. split; [exact H2|].
    split; [exact Hc|]. split; assumption.
  - intros Hinside. exfalso.
    assert (Hex : alreadyExists
              (sortBy cmpStartEnd
                 (filter (isKept chosenColor s e2) existing
                  ++ [mergedHighlight t existing s e2 chosenColor id1 now1]))
              s e2 chosenColor = true).
    { apply (alreadyExists_In _ _ _ _
               (mergedHighlight t existing s e2 chosenColor id1 now1)).
      - rewrite In_sortBy. apply in_or_app. right. now left.
      - destruct Hs' as [Hs'|(o & Ho & Hoo & Hos)]; [assumption|].
        destruct (Hinside o Ho Hoo). lia.
      - destruct He' as [He'|(o & Ho & Hoo & Hoe)]; [assumption|].
        destruct (Hinside o Ho Hoo). lia.
      - assumption. }
    congruence.
Qed.

Lemma applyHighlight_twice_witness :
  applyHighlight (str "0123456789abcdefghij")
    (applyHighlight (str "0123456789abcdefghij")
       [hl "h1" 1 pink 6 9; hl "h2" 2 blue 0 10] 5 15 pink "h3" 3)
    5 15 pink "h4" 4
  = applyHighlight (str "0123456789abcdefghij")
      [hl "h1" 1 pink 6 9; hl "h2" 2 blue 0 10] 5 15 pink "h3" 3.
Proof.
  apply (proj2 (applyHighlight_twice (str "0123456789abcdefghij")
                  [hl "h1" 1 pink 6 9; hl "h2" 2 blue 0 10]
                  5 15 pink "h3" "h4" 3 4)).
  intros h [<-|[<-|[]]] Hov; vm_compute in Hov; try discriminate.
  vm_compute. split; intro; discriminate.
Defined.

(** C5, as it is worded, fails.  With one pink highlight [[0, 10)], the pink
    request [[5, 15)] yields the pink highlight [[0, 15)]; the same request
    again finds no highlight with exactly its range, merges once more, and
    puts a highlight with a fresh [id] and [createdAt] in its place. *)
Lemma applyHighlight_twice_refreshes :
  let t := str "0123456789abcdefghij" in
  let once := applyHighlight t [hl "h1" 1 pink 0 10] 5 15 pink "h2" 2 in
  let twice := applyHighlight t once 5 15 pink "h3" 3 in
  map entity once = [ ("h2"%string, 2, pink, 0, 15) ]
  /\ map entity twice = [ ("h3"%string, 3, pink, 0, 15) ]
  /\ twice <> once.
Proof.
  cbv zeta. split; [reflexivity|]. split; [reflexivity|].
  intro H. apply (f_equal (map hl_createdAt)) in H. vm_compute in H.
  discriminate.
Qed.

(** ** Segmenter: slices *)

Lemma length_slice (t : text) (a b : Z) :
  0 <= a -> a <= b -> b <= len t ->
  Z.of_nat (length (slice t a b)) = b - a.
Proof.
  intros Ha Hab Hb. rewrite slice_in_range by assumption.
  rewrite length_firstn, length_skipn. unfold len in Hb. lia.
Qed.

Lemma slice_empty (t : text) (a : Z) :
  0 <= a -> a <= len t -> slice t a a = [].
Proof.
  intros Ha Hb. rewrite slice_in_range by lia.
  now rewrite Z.sub_diag.
Qed.

Lemma slice_whole (t : text) : slice t 0 (len t) = t.
Proof.
  pose proof (len_nonneg t).
  rewrite slice_in_range by lia. simpl. unfold len.
  rewrite Z.sub_0_r, Nat2Z.id. apply firstn_all.
Qed.

Lemma firstn_plus {A : Type} (n m : nat) (l : list A) :
  firstn (n + m) l = firstn n l ++ firstn m (skipn n l).
Proof.
  revert l. induction n as [|n IH]; intro l; [reflexivity|].
  destruct l as [|x r]; simpl.
  - now rewrite firstn_nil.
  - now rewrite IH.
Qed.

Lemma slice_app (t : text) (a b c : Z) :
  0 <= a -> a <= b -> b <= c -> c <= len t ->
  slice t a b ++ slice t b c = slice t a c.
Proof.
  intros Ha Hab Hbc Hc.
  rewrite !slice_in_range by lia.
  replace (Z.to_nat (c - a))
    with (Z.to_nat (b - a) + Z.to_nat (c - b))%nat by lia.
  rewrite firstn_plus, skipn_skipn.
  now replace (Z.to_nat (b - a) + Z.to_nat a)%nat with (Z.to_nat b) by lia.
Qed.

(** ** Segmenter: tilings *)

Section Tiles.

Variable txt : text.

Lemma tiles_le (segs : list Segment) (from to : Z) :
  tiles txt from segs to -> from <= to.
Proof.
  revert from. induction segs as [|sg r IH]; simpl; intros from H.
  - lia.
  - destruct H as (_ & H1 & _ & H2). apply IH in H2. lia.
Qed.

Lemma tiles_app (l1 l2 : list Segment) (from mid to : Z) :
  tiles txt from l1 mid -> tiles txt mid l2 to ->
  tiles txt from (l1 ++ l2) to.
Proof.
  revert from. induction l1 as [|sg r IH]; simpl; intros from H1 H2.
  - now subst.
  - destruct H1 as (Ha & Hb & Hs & Hr). auto.
Qed.

Lemma tiles_concat (segs : list Segment) (from to : Z) :
  tiles txt from segs to -> 0 <= from -> to <= len txt ->
  concat (map seg_slice segs) = slice txt from to.
Proof.
  revert from. induction segs as [|sg r IH]; simpl; intros from H H0 H1.
  - subst. symmetry. apply slice_empty; lia.
  - destruct H as (Ha & Hb & Hs & Hr).
    pose proof (tiles_le _ _ _ Hr).
    rewrite (IH _ Hr) by lia. rewrite Hs, Ha.
    apply slice_app; lia.
Qed.

Lemma tiles_starts (segs : list Segment) (from to : Z) :
  tiles txt from segs to -> Forall (fun sg => from <= seg_a sg) segs.
Proof.
  revert from. induction segs as [|sg r IH]; simpl; intros from H.
  - constructor.
  - destruct H as (Ha & Hb & _ & Hr). constructor; [lia|].
    eapply Forall_impl; [|exact (IH _ Hr)]. simpl. intros; lia.
Qed.

(** Non-empty segments that tile a range start at ascending offsets. *)
Lemma tiles_ascending (segs : list Segment) (from to : Z) :
  tiles txt from segs to ->
  Forall (fun sg => seg_a sg < seg_b sg) segs ->
  StronglySorted Z.lt (map seg_a segs).
Proof.
  revert from. induction segs as [|sg r IH]; simpl; intros from H Hne.
  - constructor.
  - destruct H as (Ha & Hb & _ & Hr). inversion Hne; subst.
    constructor; [eauto|].
    apply Forall_map.
    eapply Forall_impl; [|exact (tiles_starts _ _ _ Hr)].
    simpl. intros; lia.
Qed.

End Tiles.

(** ** Segmenter: the boundary points *)

Lemma In_setAdd (x y : Z) (b : list Z) :
  In y (setAdd x b) <-> y = x \/ In y b.
Proof.
  unfold setAdd. destruct (existsb (Z.eqb x) b) eqn:E.
  - split; [auto|]. intros [->|H]; [|assumption].
    apply existsb_exists in E as (z & Hz & Hxz).
    apply Z.eqb_eq in Hxz. now subst.
  - rewrite in_app_iff. simpl. intuition.
Qed.

Section Bounds.

Variable P : Z -> Prop.

Lemma Forall_setAdd (x : Z) (b : list Z) :
  P x -> Forall P b -> Forall P (setAdd x b).
Proof.
  intros Hx Hb. apply Forall_forall. intros y Hy.
  apply In_setAdd in Hy as [->|Hy]; [assumption|].
  rewrite Forall_forall in Hb. auto.
Qed.

Lemma Forall_add_highlights (hs : list Highlight) (b : list Z) :
  Forall (fun h => P (hl_start h) /\ P (hl_end h)) hs ->
  Forall P b ->
  Forall P (fold_left
              (fun b h => setAdd (hl_end h) (setAdd (hl_start h) b)) hs b).
Proof.
  intros Hhs. revert b. induction Hhs as [|h r [H1 H2] _ IH]; intros b Hb.
  - exact Hb.
  - simpl. apply IH. now repeat apply Forall_setAdd.
Qed.

Lemma Forall_add_ranges (srs : list SearchRange) (b : list Z) :
  Forall (fun r => P (sr_start r) /\ P (sr_end r)) srs ->
  Forall P b ->
  Forall P (fold_left
              (fun b r => setAdd (sr_end r) (setAdd (sr_start r) b)) srs b).
Proof.
  intros Hsrs. revert b. induction Hsrs as [|r l [H1 H2] _ IH]; intros b Hb.
  - exact Hb.
  - simpl. apply IH. now repeat apply Forall_setAdd.
Qed.

End Bounds.

Lemma In_add_highlights (y : Z) (hs : list Highlight) (b : list Z) :
  In y b ->
  In y (fold_left
          (fun b h => setAdd (hl_end h) (setAdd (hl_start h) b)) hs b).
Proof.
  revert b. induction hs as [|h r IH]; intros b Hb; [exact Hb|].
  simpl. apply IH. rewrite !In_setAdd. auto.
Qed.

Lemma In_add_ranges (y : Z) (srs : list SearchRange) (b : list Z) :
  In y b ->
  In y (fold_left
          (fun b r => setAdd (sr_end r) (setAdd (sr_start r) b)) srs b).
Proof.
  revert b. induction srs as [|r l IH]; intros b Hb; [exact Hb|].
  simpl. apply IH. rewrite !In_setAdd. auto.
Qed.

Lemma normalizeHighlights_inRange (len_ : Z) (highlights : list Highlight)
  (h : Highlight) :
  0 <= len_ ->
  In h (normalizeHighlights len_ highlights) ->
  0 <= hl_start h /\ hl_start h < hl_end h /\ hl_end h <= len_.
Proof.
  intros Hlen Hin. unfold normalizeHighlights in Hin.
  rewrite In_sortBy in Hin. apply In_dropNulls in Hin.
  apply in_map_iff in Hin as (h0 & Hc & _).
  unfold clampHighlight in Hc.
  destruct (_ <=? _) eqn:E; [discriminate|]. apply Z.leb_gt in E.
  injection Hc as <-. simpl.
  pose proof (clamp_range (hl_start h0) 0 len_ Hlen).
  pose proof (clamp_range (hl_end h0) 0 len_ Hlen). lia.
Qed.

Lemma collectRanges_inRange (len_ : Z) (matches : list Match) (hit : Z) :
  0 <= len_ ->
  Forall (fun r => (0 <= sr_start r <= len_) /\ (0 <= sr_end r <= len_))
         (collectRanges len_ matches hit).
Proof.
  intros Hlen. revert hit.
  induction matches as [|m rest IH]; intro hit; simpl; [constructor|].
  destruct (_ >? _).
  - constructor.
    + simpl. split; now apply clamp_range.
    + destruct (_ >=? _); [constructor|apply IH].
  - destruct (_ >=? _); [constructor|apply IH].
Qed.

Lemma cmpAscending_trans (a b c : Z) :
  cmpAscending a b <= 0 -> cmpAscending b c <= 0 -> cmpAscending a c <= 0.
Proof. unfold cmpAscending. lia. Qed.

Lemma cmpAscending_total (a b : Z) :
  0 <= cmpAscending a b -> cmpAscending b a <= 0.
Proof. unfold cmpAscending. lia. Qed.

(** The points are sorted, lie within the text and contain both ends. *)
Lemma pointsOf_spec (txt : text) (highlights : list Highlight)
  (matches : list Match) :
  let points :=
    pointsOf (len txt) (normalizeHighlights (len txt) highlights)
             (collectRanges (len txt) matches 0) in
  StronglySorted (cmpLe cmpAscending) points
  /\ Forall (fun x => 0 <= x <= len txt) points
  /\ In 0 points /\ In (len txt) points.
Proof.
  pose proof (len_nonneg txt) as Hlen.
  cbv zeta. unfold pointsOf. split; [|split; [|split]].
  - apply (sortBy_sorted _ cmpAscending_trans cmpAscending_total).
  - apply Forall_forall. intros x Hx. rewrite In_sortBy in Hx.
    revert x Hx. apply Forall_forall. unfold boundsOf.
    apply Forall_add_ranges; [apply collectRanges_inRange; lia|].
    apply Forall_add_highlights.
    + apply Forall_forall. intros h Hh.
      apply normalizeHighlights_inRange in Hh; lia.
    + repeat apply Forall_setAdd; try lia. constructor.
  - rewrite In_sortBy. unfold boundsOf.
    apply In_add_ranges, In_add_highlights. rewrite !In_setAdd. auto.
  - rewrite In_sortBy. unfold boundsOf.
    apply In_add_ranges, In_add_highlights. rewrite !In_setAdd. auto.
Qed.

Lemma sorted_head_min (a : Z) (rest : list Z) (m : Z) :
  StronglySorted (cmpLe cmpAscending) (a :: rest) ->
  In m (a :: rest) -> a <= m.
Proof.
  intros Hs Hin. apply StronglySorted_inv in Hs as [_ Hs].
  destruct Hin as [->|Hin]; [lia|].
  rewrite Forall_forall in Hs. specialize (Hs m Hin).
  unfold cmpLe, cmpAscending in Hs. lia.
Qed.

Lemma last_cons {A : Type} (b : A) (r : list A) (a : A) :
  last (b :: r) a = last r b.
Proof.
  revert a b. induction r as [|c r IH]; intros a b; [reflexivity|].
  change (last (b :: c :: r) a) with (last (c :: r) a).
  now rewrite (IH a c), (IH b c).
Qed.

Lemma sorted_last_max (a : Z) (rest : list Z) (m : Z) :
  StronglySorted (cmpLe cmpAscending) (a :: rest) ->
  In m (a :: rest) -> Forall (fun x => x <= m) (a :: rest) ->
  last rest a = m.
Proof.
  revert a. induction rest as [|b r IH]; intros a Hs Hin Hmax.
  - destruct Hin as [->|[]]. reflexivity.
  - pose proof (sorted_head_min a (b :: r) b Hs (or_intror (or_introl eq_refl)))
      as Hab.
    apply StronglySorted_inv in Hs as [Hs _].
    inversion Hmax as [|? ? Ha Hrest]; subst.
    rewrite last_cons.
    apply IH; [assumption| |assumption].
    destruct Hin as [->|Hin]; [|assumption].
    left. inversion Hrest; subst. lia.
Qed.

(** ** Segmenter: the loop *)

Section Loop.

Variables (txt : text) (hs : list Highlight) (srs : list SearchRange).

Lemma segmentsLoop_cons2 (a b : Z) (rest : list Z) :
  a < b -> 0 <= a -> b <= len txt ->
  segmentsLoop txt hs srs (a :: b :: rest)
  = {| seg_a := a; seg_b := b; seg_slice := slice txt a b;
       seg_highlight := topHighlightFor hs a b;
       seg_search := searchFor srs a b |}
    :: segmentsLoop txt hs srs (b :: rest).
Proof.
  intros Hab Ha Hb.
  change (segmentsLoop txt hs srs (a :: b :: rest))
    with ((if b <=? a then []
           else match slice txt a b with
                | [] => []
                | sl => [ {| seg_a := a; seg_b := b; seg_slice := sl;
                             seg_highlight := topHighlightFor hs a b;
                             seg_search := searchFor srs a b |} ]
                end)
          ++ segmentsLoop txt hs srs (b :: rest)).
  destruct (b <=? a) eqn:E; [apply Z.leb_le in E; lia|].
  pose proof (length_slice txt a b Ha (Z.lt_le_incl _ _ Hab) Hb) as Hl.
  destruct (slice txt a b) as [|c sl]; [simpl in Hl; lia|].
  reflexivity.
Qed.

Lemma segmentsLoop_skip (a : Z) (rest : list Z) :
  segmentsLoop txt hs srs (a :: a :: rest)
  = segmentsLoop txt hs srs (a :: rest).
Proof.
  change (segmentsLoop txt hs srs (a :: a :: rest))
    with ((if a <=? a then []
           else match slice txt a a with
                | [] => []
                | sl => [ {| seg_a := a; seg_b := a; seg_slice := sl;
                             seg_highlight := topHighlightFor hs a a;
                             seg_search := searchFor srs a a |} ]
                end)
          ++ segmentsLoop txt hs srs (a :: rest)).
  now rewrite Z.leb_refl.
Qed.

(** Over sorted points within the text the loop tiles the range from the
    first point to the last with non-empty segments, each styled by
    [topHighlightFor] and [searchFor]. *)
Lemma segmentsLoop_tiles (rest : list Z) (a : Z) :
  StronglySorted (cmpLe cmpAscending) (a :: rest) ->
  Forall (fun x => 0 <= x <= len txt) (a :: rest) ->
  let segs := segmentsLoop txt hs srs (a :: rest) in
  tiles txt a segs (last rest a)
  /\ Forall (fun sg => seg_a sg < seg_b sg) segs
  /\ Forall (fun sg =>
               seg_highlight sg
               = topHighlightFor hs (seg_a sg) (seg_b sg)
               /\ seg_search sg = searchFor srs (seg_a sg) (seg_b sg))
            segs.
Proof.
  revert a. induction rest as [|b r IH]; intros a Hs Hr; cbv zeta.
  - simpl. repeat split; constructor.
  - pose proof (sorted_head_min a (b :: r) b Hs
                  (or_intror (or_introl eq_refl))) as Hab.
    apply StronglySorted_inv in Hs as [Hs _].
    inversion Hr as [|? ? Ha Hr']; subst.
    destruct (IH b Hs Hr') as (IH1 & IH2 & IH3).
    rewrite last_cons.
    destruct (Z.eq_dec a b) as [->|Hne].
    + rewrite segmentsLoop_skip. auto.
    + inversion Hr'; subst.
      rewrite segmentsLoop_cons2 by lia.
      split; [|split].
      * simpl. repeat split; try lia. exact IH1.
      * constructor; [simpl; lia|exact IH2].
      * constructor; [simpl; auto|exact IH3].
Qed.

End Loop.

(** ** Segmenter: total coverage *)

(** C7. Whatever the text, the highlights and the search matches are, the
    segments of [renderedTranscript] start at ascending offsets and tile the
    text from [0] to its length, each carrying the slice of its range, so
    that their slices concatenated in order are the text. *)
Theorem renderedTranscript_covers
  (txt : text) (highlights : list Highlight) (matches : list Match) :
  let segs := renderedTranscript txt highlights matches in
  concat (map seg_slice segs) = txt
  /\ StronglySorted Z.lt (map seg_a segs)
  /\ tiles txt 0 segs (len txt).
Proof.
  pose proof (len_nonneg txt) as Hlen.
  assert (Hmain : let segs := renderedTranscript txt highlights matches in
                  StronglySorted Z.lt (map seg_a segs)
                  /\ tiles txt 0 segs (len txt)).
  { cbv zeta. unfold renderedTranscript.
    destruct (pointsOf_spec txt highlights matches)
      as (Hsorted & Hrange & H0 & Hl).
    set (hs := normalizeHighlights (len txt) highlights) in *.
    set (srs := collectRanges (len txt) matches 0) in *.
    destruct (_ <=? 2)%nat.
    - split; [repeat constructor|].
      simpl. repeat split; try lia. symmetry. apply slice_whole.
    - destruct (pointsOf (len txt) hs srs) as [|a rest]; [contradiction|].
      assert (Ha : a = 0).
      { pose proof (sorted_head_min a rest 0 Hsorted H0).
        inversion Hrange; subst. lia. }
      assert (Hlast : last rest a = len txt).
      { apply sorted_last_max; [assumption|assumption|].
        eapply Forall_impl; [|exact Hrange]. simpl. intros; lia. }
      destruct (segmentsLoop_tiles txt hs srs rest a Hsorted Hrange)
        as (Ht & Hne & _).
      rewrite Hlast, Ha in Ht. rewrite Ha in Hne.
      split; [|rewrite Ha; exact Ht].
      rewrite Ha. exact (tiles_ascending txt _ _ _ Ht Hne). }
  cbv zeta in *. destruct Hmain as [Hasc Ht].
  split; [|split; assumption].
  rewrite (tiles_concat txt _ 0 (len txt) Ht) by lia.
  apply slice_whole.
Qed.

(** ** Segmenter: the covering highlight *)

Lemma orZero_id (x : Z) : orZero x = x.
Proof. unfold orZero. destruct (Z.eqb_spec x 0); congruence. Qed.

Lemma pick_newest (l : list Highlight) (first : Highlight) :
  let best :=
    fold_left
      (fun best h =>
         if orZero (hl_createdAt h) >? orZero (hl_createdAt best)
         then h else best) l first in
  (best = first \/ In best l)
  /\ hl_createdAt first <= hl_createdAt best
  /\ forall h, In h l -> hl_createdAt h <= hl_createdAt best.
Proof.
  cbv zeta. revert first. induction l as [|x r IH]; intro first; simpl.
  - split; [now left|]. split; [lia|contradiction].
  - rewrite !orZero_id.
    destruct (hl_createdAt x >? hl_createdAt first) eqn:E.
    + apply Z.gtb_lt in E.
      destruct (IH x) as (H1 & H2 & H3).
      split; [destruct H1; auto|]. split; [lia|].
      intros h [<-|Hh]; auto.
    + rewrite Z.gtb_ltb in E. apply Z.ltb_ge in E.
      destruct (IH first) as (H1 & H2 & H3).
      split; [destruct H1; auto|]. split; [lia|].
      intros h [<-|Hh]; [lia|auto].
Qed.

(** [topHighlightFor] returns nothing when no highlight covers [[a, b)], and
    otherwise a covering highlight whose [createdAt] no covering highlight
    exceeds. *)
Lemma topHighlightFor_spec (hs : list Highlight) (a b : Z) :
  match topHighlightFor hs a b with
  | None => forall h, In h hs -> covers a b h = false
  | Some best =>
      In best hs /\ covers a b best = true
      /\ forall h, In h hs -> covers a b h = true ->
                   hl_createdAt h <= hl_createdAt best
  end.
Proof.
  unfold topHighlightFor.
  destruct (filter (covers a b) hs) as [|first rest] eqn:E.
  - intros h Hh. destruct (covers a b h) eqn:Hc; [|reflexivity].
    assert (Hin : In h (filter (covers a b) hs))
      by (apply filter_In; auto).
    rewrite E in Hin. contradiction.
  - destruct (pick_newest (first :: rest) first) as (H1 & _ & H3).
    set (best := fold_left _ (first :: rest) first) in *.
    assert (Hbest : In best (filter (covers a b) hs)).
    { rewrite E. destruct H1 as [->|H1]; [now left|exact H1]. }
    apply filter_In in Hbest as [Hb1 Hb2].
    split; [assumption|]. split; [assumption|].
    intros h Hh Hc. apply H3. rewrite <- E. apply filter_In. auto.
Qed.

(** When the loop runs (more than two points), every segment is styled by
    [topHighlightFor] over the normalized highlights. *)
Lemma renderedTranscript_loop_styling
  (txt : text) (highlights : list Highlight) (matches : list Match) :
  let hs := normalizeHighlights (len txt) highlights in
  let srs := collectRanges (len txt) matches 0 in
  (2 < length (pointsOf (len txt) hs srs))%nat ->
  Forall (fun sg =>
            seg_highlight sg = topHighlightFor hs (seg_a sg) (seg_b sg))
         (renderedTranscript txt highlights matches).
Proof.
  intros hs srs Hlen. unfold renderedTranscript. fold hs srs.
  destruct (_ <=? 2)%nat eqn:E; [apply Nat.leb_le in E; lia|].
  destruct (pointsOf_spec txt highlights matches)
    as (Hsorted & Hrange & _ & _). fold hs srs in Hsorted, Hrange.
  destruct (pointsOf (len txt) hs srs) as [|a rest]; [constructor|].
  destruct (segmentsLoop_tiles txt hs srs rest a Hsorted Hrange)
    as (_ & _ & Hst).
  eapply Forall_impl; [|exact Hst]. simpl. tauto.
Qed.

(** C8 at a concrete render.  The text ["abc"] carries one pink highlight
    over all of it, [[0, 3)].  The boundary set is [{0, 3}], so the early
    return for at most two points hands back the bare text: the one segment
    [[0, 3)] has no highlight, although [topHighlightFor] finds the pink
    highlight covering it. *)
Theorem renderedTranscript_whole_text_unstyled :
  let txt := str "abc" in
  let h := hl "h1" 1 pink 0 3 in
  renderedTranscript txt [h] []
  = [ {| seg_a := 0; seg_b := 3; seg_slice := txt;
         seg_highlight := None; seg_search := None |} ]
  /\ topHighlightFor (normalizeHighlights (len txt) [h]) 0 3 = Some h.
Proof. split; reflexivity. Qed.


(** * Further properties *)

(** ** Reconciler: order, identity and anchors *)

Lemma shiftIndex_le (oldText newText : text) (i j : Z) :
  i <= j ->
  shiftIndex oldText newText i <= shiftIndex oldText newText j.
Proof.
  intros Hij. pose proof (mid_regions oldText newText) as Hm.
  unfold shiftIndex, delta, clamp.
  unfold oldMidStart, newMidStart, oldMidEnd, newMidEnd in *.
  rewrite !Z.geb_leb.
  destruct (Z.leb_spec i (commonPrefix oldText newText)),
           (Z.leb_spec j (commonPrefix oldText newText)),
           (Z.leb_spec
              (len oldText
               - commonSuffix oldText newText (commonPrefix oldText newText))
              i),
           (Z.leb_spec
              (len oldText
               - commonSuffix oldText newText (commonPrefix oldText newText))
              j); lia.
Qed.

(** X1. [shiftIndex] is monotone: two offsets never cross, so a highlight
    with [start <= end] is mapped to offsets in the same order. *)
Theorem shiftIndex_monotone (oldText newText : text) (i j : Z) :
  i <= j ->
  shiftIndex oldText newText i <= shiftIndex oldText newText j.
Proof.
  intros Hij. pose proof (mid_regions oldText newText) as Hm.
  unfold shiftIndex, delta, clamp.
  unfold oldMidStart, newMidStart, oldMidEnd, newMidEnd in *.
  repeat match goal with
         | |- context [?a <=? ?b] =>
             destruct (Z.leb_spec a b)
         | |- context [?a >=? ?b] =>
             rewrite (Z.geb_leb a b)
         end; lia.
Qed.

Lemma shiftIndex_monotone_witness :
  shiftIndex (str "Hello world") (str "Hi world") 3
  <= shiftIndex (str "Hello world") (str "Hi world") 7.
Proof. apply shiftIndex_monotone. lia. Defined.

Lemma shiftHighlight_identity (oldText newText : text) (h h' : Highlight) :
  shiftHighlight oldText newText h = Some h' -> identity h' = identity h.
Proof.
  unfold shiftHighlight. destruct (_ <=? _); [discriminate|].
  intros H. injection H as <-. reflexivity.
Qed.

(** X2. The reconciler never invents, duplicates or reorders highlights:
    the identities ([id], [createdAt], [color]) of its output are those of
    its input with some left out. *)
Theorem reconcile_subsequence
  (oldText newText : text) (oldHighlights : list Highlight) :
  Subsequence
    (map identity
         (reconcileHighlightsAfterEdit oldText newText oldHighlights))
    (map identity oldHighlights).
Proof.
  unfold reconcileHighlightsAfterEdit.
  induction oldHighlights as [|h r IH]; simpl; [constructor|].
  destruct (shiftHighlight oldText newText h) as [h'|] eqn:E; simpl.
  - rewrite (shiftHighlight_identity _ _ _ _ E). now constructor.
  - now constructor.
Qed.

(** X3. Every returned highlight carries a fresh anchor: its text is the
    span text in the new buffer, and its prefix and suffix are the (at most
    16) characters next to the span. *)
Theorem reconcile_anchor
  (oldText newText : text) (oldHighlights : list Highlight)
  (h' : Highlight) :
  In h' (reconcileHighlightsAfterEdit oldText newText oldHighlights) ->
  exists pre suf,
    a_prefix (hl_anchor h') = Some pre
    /\ a_suffix (hl_anchor h') = Some suf
    /\ a_text (hl_anchor h') = spanText newText h'
    /\ len pre = Z.min 16 (hl_start h')
    /\ len suf = Z.min 16 (len newText - hl_end h')
    /\ pre ++ a_text (hl_anchor h') ++ suf
       = slice newText (hl_start h' - len pre) (hl_end h' + len suf).
Proof.
  intros Hin. unfold reconcileHighlightsAfterEdit in Hin.
  apply In_dropNulls in Hin. apply in_map_iff in Hin as (h & Hs & _).
  pose proof (shiftHighlight_inRange _ _ _ _ Hs) as (H0 & H1 & H2).
  unfold shiftHighlight in Hs. destruct (_ <=? _); [discriminate|].
  injection Hs as <-. simpl in *.
  set (a := clamp (Z.min (shiftIndex oldText newText (hl_start h))
                          (shiftIndex oldText newText (hl_end h)))
                   0 (len newText)) in *.
  set (b := clamp (Z.max (shiftIndex oldText newText (hl_start h))
                          (shiftIndex oldText newText (hl_end h)))
                   0 (len newText)) in *.
  exists (slice newText (Z.max 0 (a - 16)) a),
         (slice newText b (Z.min (len newText) (b + 16))).
  assert (Hp : len (slice newText (Z.max 0 (a - 16)) a) = Z.min 16 a)
    by (unfold len at 1; rewrite length_slice; lia).
  assert (Hq : len (slice newText b (Z.min (len newText) (b + 16)))
               = Z.min 16 (len newText - b))
    by (unfold len at 1; rewrite length_slice; lia).
  split; [reflexivity|]. split; [reflexivity|]. split; [reflexivity|].
  split; [exact Hp|]. split; [exact Hq|].
  rewrite Hp, Hq. unfold spanText. simpl.
  replace (Z.max 0 (a - 16)) with (a - Z.min 16 a) by lia.
  replace (Z.min (len newText) (b + 16))
    with (b + Z.min 16 (len newText - b)) by lia.
  rewrite !slice_app by lia. reflexivity.
Qed.

Lemma reconcile_anchor_witness :
  let h' := {| hl_id := "h1"; hl_createdAt := 1; hl_color := pink;
               hl_start := 4; hl_end := 7;
               hl_anchor := anchorAt (str "XYABCDEFGHIJ") 4 7 |} in
  exists pre suf,
    a_prefix (hl_anchor h') = Some pre
    /\ a_suffix (hl_anchor h') = Some suf
    /\ a_text (hl_anchor h') = spanText (str "XYABCDEFGHIJ") h'
    /\ len pre = Z.min 16 (hl_start h')
    /\ len suf = Z.min 16 (len (str "XYABCDEFGHIJ") - hl_end h')
    /\ pre ++ a_text (hl_anchor h') ++ suf
       = slice (str "XYABCDEFGHIJ") (hl_start h' - len pre)
               (hl_end h' + len suf).
Proof.
  cbv zeta.
  apply (reconcile_anchor (str "ABCDEFGHIJ") (str "XYABCDEFGHIJ")
           [hl "h1" 1 pink 2 5]).
  left. reflexivity.
Defined.

(** ** Reconciler: edits behind, inside and around a highlight *)

Lemma shiftHighlight_anchor_text (oldText newText : text)
  (h h' : Highlight) :
  shiftHighlight oldText newText h = Some h' ->
  a_text (hl_anchor h') = spanText newText h'.
Proof.
  unfold shiftHighlight. destruct (_ <=? _); [discriminate|].
  intros H. injection H as <-. reflexivity.
Qed.

(** X4. An edit behind every highlight (typing or deleting at the end of
    the transcript, for one) changes nothing: when the two buffers share the
    prefix [A] and all highlights lie in [A], every highlight is returned,
    in order, with its offsets, and its anchor text is its old span text. *)
Theorem reconcile_edit_behind
  (A X Y : text) (oldHighlights : list Highlight) :
  Forall (fun h => 0 <= hl_start h /\ hl_start h < hl_end h
                   /\ hl_end h <= len A) oldHighlights ->
  map (fun h => (entity h, a_text (hl_anchor h)))
      (reconcileHighlightsAfterEdit (A ++ X) (A ++ Y) oldHighlights)
  = map (fun h => (entity h, spanText (A ++ X) h)) oldHighlights.
Proof.
  unfold reconcileHighlightsAfterEdit.
  induction 1 as [|h r (H0 & H1 & H2) _ IH]; [reflexivity|].
  pose proof (commonPrefix_app A X Y) as Hp.
  pose proof (len_nonneg X) as HX.
  destruct (shiftHighlight_in_prefix (A ++ X) (A ++ Y) h)
    as (h' & Hs & He & Ht).
  { unfold inRange. rewrite len_app. lia. }
  { lia. }
  simpl. rewrite Hs. simpl. rewrite IH.
  now rewrite (shiftHighlight_anchor_text _ _ _ _ Hs), He, Ht.
Qed.

Lemma reconcile_edit_behind_witness :
  map (fun h => (entity h, a_text (hl_anchor h)))
      (reconcileHighlightsAfterEdit
         (str "Hello world" ++ str "") (str "Hello world" ++ str ", again")
         [hl "h1" 1 pink 0 5; hl "h2" 2 blue 6 11])
  = map (fun h => (entity h, spanText (str "Hello world" ++ str "") h))
        [hl "h1" 1 pink 0 5; hl "h2" 2 blue 6 11].
Proof.
  apply reconcile_edit_behind.
  repeat constructor; vm_compute; intro; discriminate.
Defined.

(** X5. When the edited region is deleted without a replacement
    ([newMidEnd = newMidStart]), every highlight that lies within the old
    edited region is dropped. *)
Theorem reconcile_deleted_region
  (oldText newText : text) (oldHighlights : list Highlight) :
  newMidEnd oldText newText = newMidStart oldText newText ->
  Forall (fun h => oldMidStart oldText newText <= hl_start h
                   /\ hl_start h <= hl_end h
                   /\ hl_end h <= oldMidEnd oldText newText)
         oldHighlights ->
  reconcileHighlightsAfterEdit oldText newText oldHighlights = [].
Proof.
  intros Hdel Hall. unfold reconcileHighlightsAfterEdit.
  pose proof (mid_regions oldText newText) as Hm.
  assert (Hs : forall i,
             oldMidStart oldText newText <= i <= oldMidEnd oldText newText ->
             shiftIndex oldText newText i = newMidStart oldText newText).
  { intros i Hi. unfold shiftIndex, delta, clamp.
    unfold oldMidStart, newMidStart, oldMidEnd, newMidEnd in *.
    destruct (Z.leb_spec i (commonPrefix oldText newText)); [lia|].
    rewrite Z.geb_leb.
    destruct (Z.leb_spec
                (len oldText
                 - commonSuffix oldText newText
                     (commonPrefix oldText newText)) i); lia. }
  induction Hall as [|h r (H1 & H2 & H3) _ IH]; [reflexivity|].
  simpl. rewrite IH. unfold shiftHighlight.
  rewrite !Hs by lia. rewrite Z.min_id, Z.max_id, Z.leb_refl.
  reflexivity.
Qed.

Lemma reconcile_deleted_region_witness :
  reconcileHighlightsAfterEdit (str "Hello big world") (str "Hello world")
    [hl "h1" 1 pink 6 9]
  = [].
Proof.
  apply reconcile_deleted_region.
  - reflexivity.
  - repeat constructor; vm_compute; intro; discriminate.
Defined.

(** X6. A highlight around the edited region ([start <= oldMidStart],
    [oldMidStart < end], [oldMidEnd <= end]) keeps its start, has its end
    moved by the change of length, and spans its old text with the old
    edited region replaced by the new one; text typed inside a highlight
    becomes part of it. *)
Theorem reconcile_edit_within_highlight
  (oldText newText : text) (oldHighlights : list Highlight)
  (h : Highlight) :
  In h oldHighlights ->
  inRange oldText h ->
  hl_start h <= oldMidStart oldText newText ->
  oldMidStart oldText newText < hl_end h ->
  oldMidEnd oldText newText <= hl_end h ->
  hl_start h < hl_end h + (len newText - len oldText) ->
  exists h',
    In h' (reconcileHighlightsAfterEdit oldText newText oldHighlights)
    /\ identity h' = identity h
    /\ hl_start h' = hl_start h
    /\ hl_end h' = hl_end h + (len newText - len oldText)
    /\ spanText newText h'
       = slice oldText (hl_start h) (oldMidStart oldText newText)
         ++ slice newText (newMidStart oldText newText)
                  (newMidEnd oldText newText)
         ++ slice oldText (oldMidEnd oldText newText) (hl_end h).
Proof.
  intros Hin (H0 & H1 & H2) Hs He1 He2 Hne.
  pose proof (mid_regions oldText newText) as (Hm1 & Hm2 & Hm3 & Hm4 & Hd).
  assert (Hns : shiftIndex oldText newText (hl_start h) = hl_start h).
  { unfold shiftIndex.
    destruct (Z.leb_spec (hl_start h) (oldMidStart oldText newText));
      [reflexivity|lia]. }
  assert (Hne' : shiftIndex oldText newText (hl_end h)
                 = hl_end h + (len newText - len oldText)).
  { unfold shiftIndex.
    destruct (Z.leb_spec (hl_end h) (oldMidStart oldText newText)); [lia|].
    rewrite Z.geb_leb.
    destruct (Z.leb_spec (oldMidEnd oldText newText) (hl_end h)); lia. }
  assert (Hshift : shiftHighlight oldText newText h
                   = Some {| hl_id := hl_id h;
                             hl_createdAt := hl_createdAt h;
                             hl_color := hl_color h;
                             hl_start := hl_start h;
                             hl_end := hl_end h + (len newText - len oldText);
                             hl_anchor :=
                               anchorAt newText (hl_start h)
                                 (hl_end h + (len newText - len oldText)) |}).
  { unfold shiftHighlight. rewrite Hns, Hne'.
    rewrite Z.min_l, Z.max_r by lia. rewrite !clamp_id by lia.
    destruct (Z.leb_spec (hl_end h + (len newText - len oldText))
                         (hl_start h)); [lia|reflexivity]. }
  eexists. split; [exact (In_reconcile _ _ _ _ _ Hin Hshift)|].
  split; [reflexivity|]. split; [reflexivity|]. split; [reflexivity|].
  unfold spanText. simpl.
  unfold oldMidStart, newMidStart, oldMidEnd, newMidEnd, delta in *.
  set (p := commonPrefix oldText newText) in *.
  set (s := commonSuffix oldText newText p) in *.
  rewrite <- (slice_app newText (hl_start h) p
                (hl_end h + (len newText - len oldText))) by lia.
  rewrite <- (slice_app newText p (len newText - s)
                (hl_end h + (len newText - len oldText))) by lia.
  f_equal; [|f_equal].
  - apply slice_ext; try lia.
    intros k Hk. symmetry. apply commonPrefix_match. fold p. lia.
  - apply slice_ext; try lia.
    intros k Hk.
    pose proof (commonSuffix_match oldText newText
                  (s - 1 - k)) as Hmatch. fold p s in Hmatch.
    replace (len oldText - 1 - (s - 1 - k)) with (len oldText - s + k)
      in Hmatch by lia.
    replace (len newText - 1 - (s - 1 - k)) with (len newText - s + k)
      in Hmatch by lia.
    symmetry. apply Hmatch. lia.
Qed.

Lemma reconcile_edit_within_highlight_witness :
  exists h',
    In h' (reconcileHighlightsAfterEdit
             (str "Hello big world") (str "Hello small world")
             [hl "h1" 1 pink 0 15])
    /\ identity h' = identity (hl "h1" 1 pink 0 15)
    /\ hl_start h' = 0
    /\ hl_end h' = 17
    /\ spanText (str "Hello small world") h' = str "Hello small world".
Proof.
  apply (reconcile_edit_within_highlight
           (str "Hello big world") (str "Hello small world")
           [hl "h1" 1 pink 0 15] (hl "h1" 1 pink 0 15)).
  - left. reflexivity.
  - vm_compute. repeat split; intro; discriminate.
  - vm_compute. intro; discriminate.
  - vm_compute. reflexivity.
  - vm_compute. intro; discriminate.
  - vm_compute. reflexivity.
Defined.

(** ** Merge engine: what is colored afterwards *)

Lemma alreadyExists_inv (l : list Highlight) (s e2 : Z)
  (c : HighlightColor) :
  alreadyExists l s e2 c = true ->
  exists h, In h l /\ hl_start h = s /\ hl_end h = e2 /\ hl_color h = c.
Proof.
  unfold alreadyExists. intros H.
  apply existsb_exists in H as (h & Hin & Hh).
  apply andb_prop in Hh as [Hh Hc]. apply andb_prop in Hh as [Hs He].
  apply Z.eqb_eq in Hs, He. apply color_eqb_eq in Hc. eauto.
Qed.

Lemma mergedHighlight_covers (t : text) (existing : list Highlight)
  (s e2 : Z) (c : HighlightColor) (newId : string) (now : Z)
  (o : Highlight) :
  In o existing -> isSameColorOverlap c s e2 o = true ->
  hl_start (mergedHighlight t existing s e2 c newId now) <= hl_start o
  /\ hl_end o <= hl_end (mergedHighlight t existing s e2 c newId now).
Proof.
  intros Hin Hov. unfold mergedHighlight. simpl.
  set (ov := filter _ existing).
  assert (Ho : In o ov) by (apply filter_In; auto).
  destruct (minOf_spec s (map hl_start ov)) as (_ & Hmin & _).
  destruct (maxOf_spec e2 (map hl_end ov)) as (_ & Hmax & _).
  split; [apply Hmin|apply Hmax]; now apply in_map.
Qed.

Lemma not_kept_overlaps (c : HighlightColor) (s e2 : Z) (h : Highlight) :
  isKept c s e2 h = false -> isSameColorOverlap c s e2 h = true.
Proof.
  unfold isKept, isSameColorOverlap.
  destruct (color_eqb (hl_color h) c); simpl; [|discriminate].
  now intros ->.
Qed.

(** X7. The offsets a color covers after [applyHighlight] are exactly those
    it covered before, together with the clamped request for the requested
    color: merging neither uncolors text nor colors text that was not
    asked for. *)
Theorem applyHighlight_colored
  (t : text) (existing : list Highlight) (start end_ : Z)
  (chosenColor : HighlightColor) (newId : string) (now : Z)
  (c : HighlightColor) (x : Z) :
  colored (applyHighlight t existing start end_ chosenColor newId now) c x
  <-> colored existing c x
      \/ (c = chosenColor
          /\ clampedStart t start end_ <= x /\ x < clampedEnd t start end_).
Proof.
  rewrite applyHighlight_unfold. cbv zeta.
  set (s := clampedStart t start end_). set (e2 := clampedEnd t start end_).
  destruct (Z.leb_spec e2 s) as [Hes|Hse].
  { split; [auto|]. intros [H|H]; [assumption|lia]. }
  destruct (alreadyExists existing s e2 chosenColor) eqn:E.
  { split; [auto|]. intros [H|(-> & H1 & H2)]; [assumption|].
    apply alreadyExists_inv in E as (h & Hin & Hs & He & Hc).
    exists h. split; [assumption|]. split; [assumption|]. lia. }
  destruct (mergedHighlight_range t existing s e2 chosenColor newId now)
    as (Hc & Hs & He & Hs' & He').
  set (m := mergedHighlight t existing s e2 chosenColor newId now) in *.
  split.
  - intros (h & Hin & Hhc & Hx1 & Hx2).
    rewrite In_sortBy in Hin. apply in_app_or in Hin as [Hin|[<-|[]]].
    + apply filter_In in Hin as [Hin _]. left. exists h. auto.
    + destruct (Z_lt_le_dec x s) as [Hxs|Hxs].
      * destruct Hs' as [Hs'|(o & Ho & Hoo & Hos)]; [lia|].
        left. exists o.
        apply isSameColorOverlap_inv in Hoo as (Hoc & Ho1 & Ho2).
        split; [assumption|]. split; [congruence|]. lia.
      * destruct (Z_lt_le_dec x e2) as [Hxe|Hxe].
        { right. split; [congruence|]. lia. }
        destruct He' as [He'|(o & Ho & Hoo & Hoe)]; [lia|].
        left. exists o.
        apply isSameColorOverlap_inv in Hoo as (Hoc & Ho1 & Ho2).
        split; [assumption|]. split; [congruence|]. lia.
  - intros [(o & Ho & Hoc & Hx1 & Hx2)|(-> & Hx1 & Hx2)].
    + destruct (isKept chosenColor s e2 o) eqn:Hk.
      * exists o. rewrite In_sortBy.
        split; [|auto].
        apply in_or_app. left. apply filter_In. auto.
      * apply not_kept_overlaps in Hk.
        destruct (mergedHighlight_covers t existing s e2 chosenColor
                    newId now o Ho Hk) as [Hm1 Hm2]. fold m in Hm1, Hm2.
        apply isSameColorOverlap_inv in Hk as (Hoc' & _ & _).
        exists m. rewrite In_sortBy.
        split; [apply in_or_app; right; now left|].
        split; [congruence|]. lia.
    + exists m. rewrite In_sortBy.
      split; [apply in_or_app; right; now left|].
      split; [assumption|]. lia.
Qed.

(** ** Merge engine: bounds, order and size of the result *)

(** The merged highlight lies within the transcript when the highlights
    it absorbs do. *)
Lemma mergedHighlight_inRange
  (t : text) (existing : list Highlight) (start end_ : Z)
  (chosenColor : HighlightColor) (newId : string) (now : Z) :
  Forall (inRange t) existing ->
  clampedStart t start end_ < clampedEnd t start end_ ->
  inRange t (mergedHighlight t existing (clampedStart t start end_)
               (clampedEnd t start end_) chosenColor newId now).
Proof.
  intros Hall Hse.
  pose proof (len_nonneg t) as Hlen.
  pose proof (clamp_range (Z.min start end_) 0 (len t) Hlen) as Hs.
  pose proof (clamp_range (Z.max start end_) 0 (len t) Hlen) as He.
  fold (clampedStart t start end_) in Hs.
  fold (clampedEnd t start end_) in He.
  set (s := clampedStart t start end_) in *.
  set (e2 := clampedEnd t start end_) in *.
  rewrite Forall_forall in Hall.
  destruct (mergedHighlight_range t existing s e2 chosenColor newId now)
    as (_ & Hms & Hme & Hs' & He').
  unfold inRange.
  assert (0 <= hl_start (mergedHighlight t existing s e2 chosenColor
                           newId now)).
  { destruct Hs' as [->|(o & Ho & _ & ->)]; [lia|].
    destruct (Hall o Ho) as (? & ? & ?). lia. }
  assert (hl_end (mergedHighlight t existing s e2 chosenColor newId now)
          <= len t).
  { destruct He' as [->|(o & Ho & _ & ->)]; [lia|].
    destruct (Hall o Ho) as (? & ? & ?). lia. }
  lia.
Qed.

(** X8. [applyHighlight] keeps the highlights within the transcript: when
    every existing highlight satisfies [0 <= start < end <= length(t)], so
    does every highlight of the result. *)
Theorem applyHighlight_inRange
  (t : text) (existing : list Highlight) (start end_ : Z)
  (chosenColor : HighlightColor) (newId : string) (now : Z) :
  Forall (inRange t) existing ->
  Forall (inRange t)
         (applyHighlight t existing start end_ chosenColor newId now).
Proof.
  intros Hall. rewrite applyHighlight_unfold. cbv zeta.
  destruct (Z.leb_spec (clampedEnd t start end_) (clampedStart t start end_))
    as [Hes|Hse]; [assumption|].
  destruct (alreadyExists existing _ _ chosenColor); [assumption|].
  apply Forall_forall. intros h Hin.
  rewrite In_sortBy in Hin. apply in_app_or in Hin as [Hin|[<-|[]]].
  - apply filter_In in Hin as [Hin _].
    rewrite Forall_forall in Hall. auto.
  - now apply mergedHighlight_inRange.
Qed.

Lemma applyHighlight_inRange_witness :
  Forall (inRange (str "0123456789"))
         (applyHighlight (str "0123456789")
            [hl "h1" 1 pink 0 5; hl "h2" 2 blue 3 10] 4 99 pink "h3" 3).
Proof.
  apply applyHighlight_inRange.
  repeat constructor; vm_compute; intro; discriminate.
Defined.

(** X9. A request that changes the highlights leaves them sorted by
    [start], then by [end], whatever the order of the existing ones was. *)
Theorem applyHighlight_sorted
  (t : text) (existing : list Highlight) (start end_ : Z)
  (chosenColor : HighlightColor) (newId : string) (now : Z) :
  applyHighlight t existing start end_ chosenColor newId now = existing
  \/ StronglySorted
       (fun a b => hl_start a < hl_start b
                   \/ (hl_start a = hl_start b /\ hl_end a <= hl_end b))
       (applyHighlight t existing start end_ chosenColor newId now).
Proof.
  rewrite applyHighlight_unfold. cbv zeta.
  destruct (_ <=? _); [now left|].
  destruct (alreadyExists _ _ _ _); [now left|].
  right.
  set (l := sortBy cmpStartEnd _).
  assert (Hs : StronglySorted (cmpLe cmpStartEnd) l)
    by apply (sortBy_sorted _ cmpStartEnd_trans cmpStartEnd_total).
  clearbody l. induction Hs as [|a r Hr IH Ha]; constructor; [assumption|].
  eapply Forall_impl; [|exact Ha].
  intros b Hab. unfold cmpLe, cmpStartEnd in Hab.
  destruct (Z.eqb_spec (hl_start a) (hl_start b)); simpl in Hab; lia.
Qed.

Lemma isKept_negb (c : HighlightColor) (s e2 : Z) (h : Highlight) :
  isKept c s e2 h = negb (isSameColorOverlap c s e2 h).
Proof.
  unfold isKept, isSameColorOverlap.
  destruct (color_eqb (hl_color h) c); simpl; [|reflexivity].
  now rewrite negb_involutive.
Qed.

Lemma length_filter_negb {A : Type} (f g : A -> bool) (l : list A) :
  (forall x, g x = negb (f x)) ->
  (length (filter f l) + length (filter g l) = length l)%nat.
Proof.
  intros Hg. induction l as [|x r IH]; [reflexivity|].
  simpl. rewrite Hg. destruct (f x); simpl; lia.
Qed.

(** X10. A request that is not empty after clamping and whose exact range
    and color is not there yet replaces the same-color highlights it
    overlaps by one highlight: the result has one highlight more than the
    input has highlights outside that overlap. *)
Theorem applyHighlight_length
  (t : text) (existing : list Highlight) (start end_ : Z)
  (chosenColor : HighlightColor) (newId : string) (now : Z) :
  let s := clampedStart t start end_ in
  let e2 := clampedEnd t start end_ in
  s < e2 ->
  alreadyExists existing s e2 chosenColor = false ->
  (length (applyHighlight t existing start end_ chosenColor newId now)
   + length (filter (isSameColorOverlap chosenColor s e2) existing)
   = length existing + 1)%nat.
Proof.
  intros s e2 Hse Hex. rewrite applyHighlight_unfold. cbv zeta.
  fold s e2. rewrite Hex.
  destruct (Z.leb_spec e2 s); [lia|].
  rewrite length_sortBy, length_app. simpl.
  pose proof (length_filter_negb (isSameColorOverlap chosenColor s e2)
                (isKept chosenColor s e2) existing
                (isKept_negb chosenColor s e2)). lia.
Qed.

Lemma applyHighlight_length_witness :
  (length (applyHighlight (str "0123456789012345678901234567890123456789")
             [hl "h1" 1 pink 0 10; hl "h2" 2 pink 20 30; hl "h3" 3 blue 5 25]
             8 22 pink "h4" 4)
   + 2 = 3 + 1)%nat.
Proof.
  apply (applyHighlight_length
           (str "0123456789012345678901234567890123456789")
           [hl "h1" 1 pink 0 10; hl "h2" 2 pink 20 30; hl "h3" 3 blue 5 25]
           8 22 pink "h4" 4).
  - vm_compute. reflexivity.
  - reflexivity.
Defined.

(** X11. A request that lies outside the transcript, behind its end or
    before its start, changes nothing. *)
Theorem applyHighlight_outside
  (t : text) (existing : list Highlight) (start end_ : Z)
  (chosenColor : HighlightColor) (newId : string) (now : Z) :
  (len t <= start /\ len t <= end_) \/ (start <= 0 /\ end_ <= 0) ->
  applyHighlight t existing start end_ chosenColor newId now = existing.
Proof.
  intros H. rewrite applyHighlight_unfold. cbv zeta.
  pose proof (len_nonneg t).
  destruct (Z.leb_spec (clampedEnd t start end_) (clampedStart t start end_))
    as [|Hlt]; [reflexivity|].
  unfold clampedStart, clampedEnd, clamp in Hlt. lia.
Qed.

Lemma applyHighlight_outside_witness :
  applyHighlight (str "0123456789") [hl "h1" 1 pink 0 5] 12 15 pink "h2" 2
  = [hl "h1" 1 pink 0 5].
Proof.
  apply applyHighlight_outside. left. vm_compute. split; discriminate.
Defined.

(** ** A chapter under edits and highlight requests *)

Lemma shiftHighlight_ordered (oldText newText : text) (h h' : Highlight) :
  hl_start h <= hl_end h ->
  shiftHighlight oldText newText h = Some h' ->
  hl_color h' = hl_color h
  /\ hl_start h'
     = clamp (shiftIndex oldText newText (hl_start h)) 0 (len newText)
  /\ hl_end h'
     = clamp (shiftIndex oldText newText (hl_end h)) 0 (len newText).
Proof.
  intros Hle. unfold shiftHighlight.
  pose proof (shiftIndex_le oldText newText _ _ Hle) as Hm.
  rewrite Z.min_l, Z.max_r by assumption.
  destruct (_ <=? _); [discriminate|].
  intros H. injection H as <-. auto.
Qed.

Lemma shiftHighlight_disjoint (oldText newText : text)
  (a b a' b' : Highlight) :
  hl_start a < hl_end a -> hl_start b < hl_end b ->
  sameColorDisjoint a b ->
  shiftHighlight oldText newText a = Some a' ->
  shiftHighlight oldText newText b = Some b' ->
  sameColorDisjoint a' b'.
Proof.
  intros Ha Hb Hab Hsa Hsb Hc Hov.
  apply shiftHighlight_ordered in Hsa as (Hca & Hsa & Hea); [|lia].
  apply shiftHighlight_ordered in Hsb as (Hcb & Hsb & Heb); [|lia].
  assert (Hdis : ~ overlap a b) by (apply Hab; congruence).
  unfold overlap in *.
  assert (Hcase : hl_end a <= hl_start b \/ hl_end b <= hl_start a) by lia.
  destruct Hcase as [Hcase|Hcase];
    pose proof (shiftIndex_le oldText newText _ _ Hcase) as Hm;
    unfold clamp in *; lia.
Qed.

Lemma reconcile_disjoint (oldText newText : text) (hs : list Highlight) :
  Forall (fun h => hl_start h < hl_end h) hs ->
  noSameColorOverlap hs ->
  noSameColorOverlap (reconcileHighlightsAfterEdit oldText newText hs).
Proof.
  unfold noSameColorOverlap, reconcileHighlightsAfterEdit.
  induction 1 as [|h r Hh Hr IH]; intros Hp; [constructor|].
  inversion Hp as [|? ? Hhr Hpr]; subst.
  simpl. destruct (shiftHighlight oldText newText h) as [h'|] eqn:E;
    [|auto].
  constructor; [|auto].
  apply Forall_forall. intros k' Hk'.
  apply In_dropNulls in Hk'. apply in_map_iff in Hk' as (k & Hk & Hin).
  rewrite Forall_forall in Hhr, Hr.
  exact (shiftHighlight_disjoint oldText newText h k h' k'
           Hh (Hr k Hin) (Hhr k Hin) E Hk).
Qed.

Lemma saveTranscriptEdit_ok (chapterId : string) (editDraft : text)
  (c : Chapter) :
  chapterOk c -> chapterOk (saveTranscriptEdit chapterId editDraft c).
Proof.
  intros [Hr Hd]. unfold saveTranscriptEdit.
  destruct (negb _); [now split|].
  split; simpl.
  - apply Forall_forall. intros h' Hin.
    unfold reconcileHighlightsAfterEdit in Hin.
    apply In_dropNulls in Hin. apply in_map_iff in Hin as (h & Hs & _).
    exact (shiftHighlight_inRange _ _ _ _ Hs).
  - apply reconcile_disjoint; [|assumption].
    eapply Forall_impl; [|exact Hr]. unfold inRange. tauto.
Qed.

Lemma onApplyHighlight_ok (chapterId : string) (start end_ : Z)
  (color : option HighlightColor) (newId : string) (now : Z)
  (c : Chapter) :
  chapterOk c ->
  chapterOk (onApplyHighlight chapterId start end_ color newId now c).
Proof.
  intros [Hr Hd]. unfold onApplyHighlight.
  destruct (negb _); [now split|].
  set (k := match color with Some k => k | None => pink end).
  set (t := ch_transcript c) in *. set (ex := ch_highlights c) in *.
  unfold chapterOk. simpl. fold t ex.
  rewrite applyHighlight_unfold. cbv zeta.
  destruct (Z.leb_spec (clampedEnd t start end_) (clampedStart t start end_))
    as [Hes|Hse]; [now split|].
  destruct (alreadyExists ex _ _ k); [now split|].
  split.
  - apply Forall_forall. intros h Hin.
    rewrite In_sortBy in Hin. apply in_app_or in Hin as [Hin|[<-|[]]].
    + apply filter_In in Hin as [Hin _].
      rewrite Forall_forall in Hr. auto.
    + now apply mergedHighlight_inRange.
  - apply (pairs_sortBy _ _ sameColorDisjoint_sym).
    apply (pairs_snoc _ sameColorDisjoint_sym).
    + now apply pairs_filter.
    + apply Forall_forall. intros h Hh.
      apply filter_In in Hh as [Hh Hkept].
      now apply merged_disjoint_from_kept.
Qed.

(** X12. Whatever transcript edits and highlight requests a chapter goes
    through, in any order, its highlights stay within its transcript
    ([0 <= start < end <= length]) and no two highlights of the same color
    overlap, provided this held at the start (as it does for a chapter
    without highlights). *)
Theorem run_keeps_chapterOk (c : Chapter) (actions : list Action) :
  chapterOk c -> chapterOk (run c actions).
Proof.
  unfold run. revert c.
  induction actions as [|a r IH]; intros c Hc; [exact Hc|].
  simpl. apply IH. destruct a as [cid draft|cid st en col nid now]; simpl.
  - now apply saveTranscriptEdit_ok.
  - now apply onApplyHighlight_ok.
Qed.

Lemma run_keeps_chapterOk_witness :
  chapterOk
    (run (mkChapter "c1" (str "Hello big world") [])
         [ ApplyHighlight "c1" 0 5 (Some pink) "h1" 1;
           ApplyHighlight "c1" 6 15 None "h2" 2;
           SaveEdit "c1" (str "Hello world");
           ApplyHighlight "c1" 3 8 (Some blue) "h3" 3 ]).
Proof.
  apply run_keeps_chapterOk. split; constructor.
Defined.

(** ** Segmenter: search ranges *)

Lemma collectRanges_hits (len_ : Z) (matches : list Match) (hit : Z) :
  hit < 80 ->
  hit + Z.of_nat (length (collectRanges len_ matches hit)) <= 80
  /\ map sr_hit (collectRanges len_ matches hit)
     = map (fun k => hit + Z.of_nat k)
           (seq 0 (length (collectRanges len_ matches hit))).
Proof.
  revert hit. induction matches as [|m rest IH]; intros hit Hhit.
  - split; [simpl; lia|reflexivity].
  - cbn [collectRanges]. destruct (_ >? _).
    + destruct (Z.geb_spec (hit + 1) 80) as [Hge|Hlt].
      * cbn [length map seq sr_hit]. split; [lia|]. f_equal. lia.
      * destruct (IH (hit + 1) Hlt) as [IH1 IH2].
        cbn [length map seq sr_hit].
        split; [lia|]. f_equal; [lia|].
        rewrite IH2 at 1. rewrite <- seq_shift, map_map.
        apply map_ext. intros k. lia.
    + destruct (Z.geb_spec hit 80) as [Hge|Hlt]; [lia|]. now apply IH.
Qed.

(** X13. At most 80 search ranges are collected, and their hit numbers
    count up from 0 in the order of the matches. *)
Theorem collectRanges_numbered (len_ : Z) (matches : list Match) :
  (length (collectRanges len_ matches 0) <= 80)%nat
  /\ map sr_hit (collectRanges len_ matches 0)
     = map Z.of_nat (seq 0 (length (collectRanges len_ matches 0))).
Proof.
  destruct (collectRanges_hits len_ matches 0) as [H1 H2]; [lia|].
  split; [lia|]. rewrite H2. apply map_ext. intros k. lia.
Qed.

(** ** Segmenter: segments are atomic *)

Lemma In_add_highlights_bounds (hs : list Highlight) (b : list Z)
  (h : Highlight) :
  In h hs ->
  let b' := fold_left
              (fun b h => setAdd (hl_end h) (setAdd (hl_start h) b)) hs b in
  In (hl_start h) b' /\ In (hl_end h) b'.
Proof.
  cbv zeta. revert b.
  induction hs as [|k r IH]; intros b Hin; [contradiction|].
  destruct Hin as [->|Hin]; [|now apply IH].
  simpl. split; apply In_add_highlights; rewrite !In_setAdd; auto.
Qed.

Lemma In_add_ranges_bounds (srs : list SearchRange) (b : list Z)
  (r : SearchRange) :
  In r srs ->
  let b' := fold_left
              (fun b r => setAdd (sr_end r) (setAdd (sr_start r) b)) srs b in
  In (sr_start r) b' /\ In (sr_end r) b'.
Proof.
  cbv zeta. revert b.
  induction srs as [|k l IH]; intros b Hin; [contradiction|].
  destruct Hin as [->|Hin]; [|now apply IH].
  simpl. split; apply In_add_ranges; rewrite !In_setAdd; auto.
Qed.

Lemma pointsOf_bounds (len_ : Z) (hs : list Highlight)
  (srs : list SearchRange) :
  (forall h, In h hs ->
             In (hl_start h) (pointsOf len_ hs srs)
             /\ In (hl_end h) (pointsOf len_ hs srs))
  /\ (forall r, In r srs ->
                In (sr_start r) (pointsOf len_ hs srs)
                /\ In (sr_end r) (pointsOf len_ hs srs)).
Proof.
  unfold pointsOf, boundsOf. split.
  - intros h Hh. rewrite !In_sortBy.
    destruct (In_add_highlights_bounds hs (setAdd len_ (setAdd 0 [])) h Hh)
      as [H1 H2].
    split; now apply In_add_ranges.
  - intros r Hr. rewrite !In_sortBy.
    now apply In_add_ranges_bounds.
Qed.

(** No point lies strictly inside a segment of the loop. *)
Lemma segmentsLoop_atomic (txt : text) (hs : list Highlight)
  (srs : list SearchRange) (rest : list Z) (a : Z) :
  StronglySorted (cmpLe cmpAscending) (a :: rest) ->
  Forall (fun x => 0 <= x <= len txt) (a :: rest) ->
  forall sg x,
    In sg (segmentsLoop txt hs srs (a :: rest)) -> In x (a :: rest) ->
    x <= seg_a sg \/ seg_b sg <= x.
Proof.
  revert a. induction rest as [|b r IH]; intros a Hs Hr sg x Hsg Hx.
  - contradiction.
  - pose proof (sorted_head_min a (b :: r) b Hs
                  (or_intror (or_introl eq_refl))) as Hab.
    pose proof Hs as Hs0.
    apply StronglySorted_inv in Hs as [Hs _].
    inversion Hr as [|? ? Ha Hr']; subst.
    assert (Htail : forall sg', In sg' (segmentsLoop txt hs srs (b :: r)) ->
                                b <= seg_a sg').
    { destruct (segmentsLoop_tiles txt hs srs r b Hs Hr') as (Ht & _ & _).
      intros sg' Hsg'. pose proof (tiles_starts txt _ _ _ Ht) as Hst.
      rewrite Forall_forall in Hst. auto. }
    assert (Hin_tail : In sg (segmentsLoop txt hs srs (b :: r)) ->
                       x <= seg_a sg \/ seg_b sg <= x).
    { intros Hsg'. destruct Hx as [<-|Hx].
      - left. specialize (Htail sg Hsg'). lia.
      - now apply (IH b Hs Hr'). }
    destruct (Z.eq_dec a b) as [->|Hne].
    + rewrite segmentsLoop_skip in Hsg. auto.
    + inversion Hr'; subst.
      rewrite segmentsLoop_cons2 in Hsg by lia.
      destruct Hsg as [<-|Hsg]; [|auto]. simpl.
      destruct Hx as [<-|Hx]; [left; lia|right].
      exact (sorted_head_min b r x Hs Hx).
Qed.

(** The segments of a render that ran the loop, and the points they come
    from. *)
Lemma renderedTranscript_loop
  (txt : text) (highlights : list Highlight) (matches : list Match) :
  let hs := normalizeHighlights (len txt) highlights in
  let srs := collectRanges (len txt) matches 0 in
  (2 < length (pointsOf (len txt) hs srs))%nat ->
  forall sg, In sg (renderedTranscript txt highlights matches) ->
    seg_highlight sg = topHighlightFor hs (seg_a sg) (seg_b sg)
    /\ seg_search sg = searchFor srs (seg_a sg) (seg_b sg)
    /\ seg_a sg < seg_b sg
    /\ forall x, In x (pointsOf (len txt) hs srs) ->
                 x <= seg_a sg \/ seg_b sg <= x.
Proof.
  intros hs srs Hlen sg Hsg. unfold renderedTranscript in Hsg.
  fold hs srs in Hsg.
  destruct (Nat.leb_spec (length (pointsOf (len txt) hs srs)) 2);
    [lia|].
  destruct (pointsOf_spec txt highlights matches)
    as (Hsorted & Hrange & _ & _). fold hs srs in Hsorted, Hrange.
  destruct (pointsOf (len txt) hs srs) as [|a rest]; [contradiction|].
  destruct (segmentsLoop_tiles txt hs srs rest a Hsorted Hrange)
    as (_ & Hne & Hst).
  rewrite Forall_forall in Hne, Hst.
  destruct (Hst sg Hsg) as [H1 H2].
  split; [assumption|]. split; [assumption|]. split; [auto|].
  intros x Hx.
  exact (segmentsLoop_atomic txt hs srs rest a Hsorted Hrange sg x Hsg Hx).
Qed.

(** X14. When the text is split at more than two points, every segment is
    styled by the newest highlight that reaches into it, and that highlight
    contains the whole segment; a segment no highlight reaches into gets no
    color.  (The highlights are the input ones clamped to the text.) *)
Theorem renderedTranscript_highlight
  (txt : text) (highlights : list Highlight) (matches : list Match)
  (sg : Segment) :
  let hs := normalizeHighlights (len txt) highlights in
  let srs := collectRanges (len txt) matches 0 in
  (2 < length (pointsOf (len txt) hs srs))%nat ->
  In sg (renderedTranscript txt highlights matches) ->
  match seg_highlight sg with
  | None =>
      forall h, In h hs ->
                ~ (hl_start h < seg_b sg /\ seg_a sg < hl_end h)
  | Some best =>
      In best hs
      /\ hl_start best <= seg_a sg /\ seg_b sg <= hl_end best
      /\ forall h, In h hs ->
                   hl_start h < seg_b sg -> seg_a sg < hl_end h ->
                   hl_createdAt h <= hl_createdAt best
  end.
Proof.
  intros hs srs Hlen Hsg.
  destruct (renderedTranscript_loop txt highlights matches Hlen sg Hsg)
    as (Hh & _ & Hab & Hatomic). fold hs srs in Hh, Hatomic.
  rewrite Hh.
  pose proof (topHighlightFor_spec hs (seg_a sg) (seg_b sg)) as Hspec.
  destruct (topHighlightFor hs (seg_a sg) (seg_b sg)) as [best|].
  - destruct Hspec as (Hin & Hcov & Hnew).
    unfold covers in Hcov. apply andb_prop in Hcov as [Hc1 Hc2].
    apply Z.ltb_lt in Hc1. rewrite Z.gtb_ltb in Hc2. apply Z.ltb_lt in Hc2.
    destruct (pointsOf_bounds (len txt) hs srs) as [Hb _].
    destruct (Hb best Hin) as [Hs He].
    pose proof (Hatomic _ Hs). pose proof (Hatomic _ He).
    split; [assumption|]. split; [lia|]. split; [lia|].
    intros h Hh1 Hh2 Hh3. apply Hnew; [assumption|].
    unfold covers. rewrite Z.gtb_ltb.
    apply andb_true_intro. split; now apply Z.ltb_lt.
  - intros h Hh1 [Hh2 Hh3]. specialize (Hspec h Hh1).
    unfold covers in Hspec. rewrite Z.gtb_ltb in Hspec.
    apply andb_false_iff in Hspec as [Hf|Hf]; apply Z.ltb_ge in Hf; lia.
Qed.

Lemma renderedTranscript_highlight_witness :
  In (hl "h2" 2 pink 2 5) (normalizeHighlights 6
                             [hl "h1" 1 blue 0 3; hl "h2" 2 pink 2 5])
  /\ 2 <= 2 /\ 3 <= 5
  /\ forall h, In h (normalizeHighlights 6
                       [hl "h1" 1 blue 0 3; hl "h2" 2 pink 2 5]) ->
               hl_start h < 3 -> 2 < hl_end h -> hl_createdAt h <= 2.
Proof.
  apply (renderedTranscript_highlight (str "abcdef")
           [hl "h1" 1 blue 0 3; hl "h2" 2 pink 2 5] []
           {| seg_a := 2; seg_b := 3; seg_slice := str "c";
              seg_highlight := Some (hl "h2" 2 pink 2 5);
              seg_search := None |}).
  - vm_compute. lia.
  - vm_compute. right. left. reflexivity.
Defined.

(** X15. When the text is split at more than two points, a segment is
    marked as a search hit exactly when a search range reaches into it; the
    range it carries is one of the collected ranges and contains the whole
    segment. *)
Theorem renderedTranscript_search
  (txt : text) (highlights : list Highlight) (matches : list Match)
  (sg : Segment) :
  let hs := normalizeHighlights (len txt) highlights in
  let srs := collectRanges (len txt) matches 0 in
  (2 < length (pointsOf (len txt) hs srs))%nat ->
  In sg (renderedTranscript txt highlights matches) ->
  match seg_search sg with
  | None =>
      forall r, In r srs ->
                ~ (sr_start r < seg_b sg /\ seg_a sg < sr_end r)
  | Some r =>
      In r srs /\ sr_start r <= seg_a sg /\ seg_b sg <= sr_end r
  end.
Proof.
  intros hs srs Hlen Hsg.
  destruct (renderedTranscript_loop txt highlights matches Hlen sg Hsg)
    as (_ & Hs & Hab & Hatomic). fold hs srs in Hs, Hatomic.
  rewrite Hs. unfold searchFor.
  destruct (find _ srs) as [r|] eqn:E.
  - apply find_some in E as [Hin Hcov].
    apply andb_prop in Hcov as [Hc1 Hc2].
    apply Z.ltb_lt in Hc1. rewrite Z.gtb_ltb in Hc2. apply Z.ltb_lt in Hc2.
    destruct (pointsOf_bounds (len txt) hs srs) as [_ Hb].
    destruct (Hb r Hin) as [Hrs Hre].
    pose proof (Hatomic _ Hrs). pose proof (Hatomic _ Hre).
    split; [assumption|]. lia.
  - intros r Hr [H1 H2].
    pose proof (find_none _ _ E r Hr) as Hf. simpl in Hf.
    rewrite Z.gtb_ltb in Hf.
    apply andb_false_iff in Hf as [Hf|Hf]; apply Z.ltb_ge in Hf; lia.
Qed.

Lemma renderedTranscript_search_witness :
  In (mkSearchRange 1 4 0) (collectRanges 6 [mkMatch 1 3] 0)
  /\ 1 <= 2 /\ 3 <= 4.
Proof.
  apply (renderedTranscript_search (str "abcdef")
           [hl "h1" 1 blue 0 3; hl "h2" 2 pink 2 5] [mkMatch 1 3]
           {| seg_a := 2; seg_b := 3; seg_slice := str "c";
              seg_highlight := Some (hl "h2" 2 pink 2 5);
              seg_search := Some (mkSearchRange 1 4 0) |}).
  - vm_compute. lia.
  - vm_compute. right. right. left. reflexivity.
Defined.

(** ** Text utilities: previews *)

Lemma len_cat (t u : text) : len (t ++ u) = len t + len u.
Proof. unfold len. rewrite length_app. lia. Qed.

Lemma len_slice_le (t : text) (a b : Z) :
  0 <= a <= len t -> 0 <= b <= len t ->
  len (slice t a b) = Z.max 0 (b - a).
Proof.
  intros Ha Hb. unfold len at 1.
  destruct (Z_le_gt_dec a b) as [Hab|Hab].
  - rewrite length_slice by lia. lia.
  - unfold slice.
    destruct (a <? 0) eqn:E1; [apply Z.ltb_lt in E1; lia|].
    destruct (b <? 0) eqn:E2; [apply Z.ltb_lt in E2; lia|].
    rewrite !Z.min_l by lia.
    replace (Z.to_nat (b - a)) with 0%nat by lia. simpl. lia.
Qed.

Lemma makePreview_len (txt : text) (startIndex needleLen : Z) :
  len (makePreview txt startIndex needleLen)
  <= Z.max 0 (needleLen + 88) + 2.
Proof.
  pose proof (len_nonneg txt) as Hlen.
  unfold makePreview. cbv zeta.
  pose proof (clamp_range (startIndex - 44) 0 (len txt) Hlen) as Ha.
  pose proof (clamp_range (startIndex + needleLen + 44) 0 (len txt) Hlen)
    as Hb.
  rewrite !len_cat, (len_slice_le txt _ _ Ha Hb).
  destruct (clamp (startIndex - 44) 0 (len txt) >? 0),
           (clamp (startIndex + needleLen + 44) 0 (len txt) <? len txt);
    unfold len in *; cbn [length] in *; unfold clamp in *; lia.
Qed.

(** X16. A preview is short: for a needle of length [needleLen >= 0] it
    has at most [2 * 44 + needleLen + 2] characters, wherever the match is
    and however long the text. *)
Theorem makePreview_bounded (txt : text) (startIndex needleLen : Z) :
  0 <= needleLen ->
  len (makePreview txt startIndex needleLen) <= 2 * 44 + needleLen + 2.
Proof.
  intros Hn. pose proof (makePreview_len txt startIndex needleLen). lia.
Qed.

Lemma makePreview_bounded_witness :
  len (makePreview (str "Hello world") 6 5) <= 2 * 44 + 5 + 2.
Proof. apply makePreview_bounded. lia. Defined.

(** X17. For a match inside the text the preview is the match with up to
    44 characters of the text on either side, an ellipsis in front when
    more than 44 characters precede the match and one behind when more
    than 44 follow it. *)
Theorem makePreview_around_match (txt : text) (startIndex needleLen : Z) :
  0 <= startIndex -> 0 <= needleLen ->
  startIndex + needleLen <= len txt ->
  makePreview txt startIndex needleLen
  = (if 44 <? startIndex then [ellipsis] else [])
    ++ slice txt (Z.max 0 (startIndex - 44)) startIndex
    ++ slice txt startIndex (startIndex + needleLen)
    ++ slice txt (startIndex + needleLen)
             (Z.min (len txt) (startIndex + needleLen + 44))
    ++ (if startIndex + needleLen + 44 <? len txt then [ellipsis] else []).
Proof.
  intros Hs Hn He. unfold makePreview. cbv zeta.
  assert (Ha : clamp (startIndex - 44) 0 (len txt)
               = Z.max 0 (startIndex - 44)) by (unfold clamp; lia).
  assert (Hb : clamp (startIndex + needleLen + 44) 0 (len txt)
               = Z.min (len txt) (startIndex + needleLen + 44))
    by (unfold clamp; lia).
  rewrite Ha, Hb.
  assert (H1 : (Z.max 0 (startIndex - 44) >? 0) = (44 <? startIndex)).
  { rewrite Z.gtb_ltb.
    destruct (Z.ltb_spec 0 (Z.max 0 (startIndex - 44))),
             (Z.ltb_spec 44 startIndex); try reflexivity; lia. }
  assert (H2 : (Z.min (len txt) (startIndex + needleLen + 44) <? len txt)
               = (startIndex + needleLen + 44 <? len txt)).
  { destruct (Z.ltb_spec (Z.min (len txt) (startIndex + needleLen + 44))
                         (len txt)),
             (Z.ltb_spec (startIndex + needleLen + 44) (len txt));
      try reflexivity; lia. }
  rewrite H1, H2. f_equal.
  rewrite <- (slice_app txt (Z.max 0 (startIndex - 44)) startIndex
                (Z.min (len txt) (startIndex + needleLen + 44))) by lia.
  rewrite <- (slice_app txt startIndex (startIndex + needleLen)
                (Z.min (len txt) (startIndex + needleLen + 44))) by lia.
  now rewrite <- !app_assoc.
Qed.

Lemma makePreview_around_match_witness :
  makePreview (str "Hello world") 6 5
  = (if 44 <? 6 then [ellipsis] else [])
    ++ slice (str "Hello world") (Z.max 0 (6 - 44)) 6
    ++ slice (str "Hello world") 6 (6 + 5)
    ++ slice (str "Hello world") (6 + 5)
             (Z.min (len (str "Hello world")) (6 + 5 + 44))
    ++ (if 6 + 5 + 44 <? len (str "Hello world") then [ellipsis] else []).
Proof.
  apply makePreview_around_match; [lia|lia|]. vm_compute. discriminate.
Defined.

(** ** Text utilities: whitespace *)

Lemma dropWhile_split {A : Type} (f : A -> bool) (l : list A) :
  exists pre, l = pre ++ dropWhile f l /\ Forall (fun x => f x = true) pre.
Proof.
  induction l as [|x r (pre & Hl & Hpre)]; simpl.
  - exists []. split; [reflexivity|constructor].
  - destruct (f x) eqn:E.
    + exists (x :: pre). split; [simpl; now rewrite <- Hl|now constructor].
    + exists []. split; [reflexivity|constructor].
Qed.

Lemma dropWhile_nil_iff {A : Type} (f : A -> bool) (l : list A) :
  dropWhile f l = [] <-> Forall (fun x => f x = true) l.
Proof.
  induction l as [|x r IH]; simpl.
  - split; [constructor|reflexivity].
  - destruct (f x) eqn:E.
    + rewrite IH. split; [now constructor|]. intros H. now inversion H.
    + split; [discriminate|]. intros H. inversion H. congruence.
Qed.

Lemma dropWhile_startsClean (s : text) :
  startsClean (dropWhile isWhite s) = true.
Proof.
  induction s as [|c r IH]; simpl; [reflexivity|].
  destruct (isWhite c) eqn:E; [assumption|]. simpl. now rewrite E.
Qed.

Lemma dropWhile_clean (t : text) :
  startsClean t = true -> dropWhile isWhite t = t.
Proof.
  destruct t as [|c r]; simpl; [reflexivity|].
  destruct (isWhite c); [discriminate|reflexivity].
Qed.

Lemma endsClean_snoc (l : text) (d : ascii) :
  endsClean (l ++ [d]) = negb (isWhite d).
Proof.
  induction l as [|c r IH]; [reflexivity|].
  simpl. destruct (r ++ [d]) eqn:E; [now destruct r|exact IH].
Qed.

Lemma endsClean_app (pre v : text) :
  v <> [] -> endsClean (pre ++ v) = endsClean v.
Proof.
  intros Hv. induction pre as [|c r IH]; [reflexivity|].
  simpl. destruct (r ++ v) eqn:E; [|exact IH].
  apply app_eq_nil in E as [_ E]. contradiction.
Qed.

Lemma startsClean_rev (v : text) : startsClean (rev v) = endsClean v.
Proof.
  induction v as [|c r IH]; [reflexivity|].
  simpl rev. destruct r as [|d r'].
  - reflexivity.
  - change (endsClean (c :: d :: r')) with (endsClean (d :: r')).
    rewrite <- IH. simpl rev.
    destruct (rev r' ++ [d]) eqn:E; [now destruct (rev r')|reflexivity].
Qed.

Lemma endsClean_rev (v : text) : endsClean (rev v) = startsClean v.
Proof. now rewrite <- startsClean_rev, rev_involutive. Qed.

Lemma trim_clean (s : text) :
  startsClean (trim s) = true /\ endsClean (trim s) = true.
Proof.
  unfold trim.
  set (u := dropWhile isWhite s).
  pose proof (dropWhile_startsClean s) as Hu. fold u in Hu.
  pose proof (dropWhile_startsClean (rev u)) as Hv.
  destruct (dropWhile_split isWhite (rev u)) as (pre & Hsplit & _).
  set (v := dropWhile isWhite (rev u)) in *.
  split; [|now rewrite endsClean_rev].
  rewrite startsClean_rev.
  destruct v as [|d v'] eqn:Ev; [reflexivity|].
  rewrite <- (endsClean_app pre (d :: v')) by discriminate.
  now rewrite <- Hsplit, endsClean_rev.
Qed.

Lemma trim_id (t : text) :
  startsClean t = true -> endsClean t = true -> trim t = t.
Proof.
  intros Hs He. unfold trim.
  rewrite (dropWhile_clean t Hs).
  rewrite dropWhile_clean by now rewrite startsClean_rev.
  apply rev_involutive.
Qed.

Lemma trim_nil_iff (s : text) :
  trim s = [] <-> Forall (fun c => isWhite c = true) s.
Proof.
  unfold trim. split.
  - intros H.
    apply (f_equal (@rev ascii)) in H. rewrite rev_involutive in H.
    simpl in H. apply dropWhile_nil_iff in H.
    apply dropWhile_nil_iff.
    pose proof (dropWhile_startsClean s) as Hu.
    destruct (dropWhile isWhite s) as [|c r]; [reflexivity|].
    simpl in Hu. rewrite Forall_forall in H.
    rewrite (H c) in Hu; [discriminate|].
    apply in_rev. rewrite rev_involutive. now left.
  - intros H. apply dropWhile_nil_iff in H. now rewrite H.
Qed.

Lemma endsClean_tail (c : ascii) (r : text) :
  endsClean (c :: r) = true -> r <> [] -> endsClean r = true.
Proof. destruct r; [contradiction|auto]. Qed.

Lemma replaceWhiteRuns_shape (t : text) (inRun : bool) :
  endsClean t = true ->
  (inRun = true \/ startsClean t = true ->
   startsClean (replaceWhiteRuns inRun t) = true)
  /\ spaced (replaceWhiteRuns inRun t) = true
  /\ (t <> [] -> replaceWhiteRuns inRun t <> []).
Proof.
  revert inRun. induction t as [|c r IH]; intros inRun He.
  - simpl. repeat split; auto.
  - simpl. destruct (isWhite c) eqn:Ec.
    + assert (Hr : r <> []) by (intros ->; simpl in He; now rewrite Ec in He).
      destruct (IH true (endsClean_tail c r He Hr)) as (H1 & H2 & H3).
      specialize (H1 (or_introl eq_refl)). specialize (H3 Hr).
      destruct inRun.
      * repeat split; auto.
      * split; [intros [?|?]; discriminate|].
        split; [|discriminate].
        simpl. destruct (replaceWhiteRuns true r) as [|d o];
          [contradiction|].
        simpl in H1. now rewrite H1, H2.
    + assert (Her : endsClean r = true)
        by (destruct r; [reflexivity|exact He]).
      destruct (IH false Her) as (_ & H2 & _).
      split; [intros _; simpl; now rewrite Ec|].
      split; [simpl; now rewrite Ec|discriminate].
Qed.

Lemma replaceWhiteRuns_fixed (t : text) (inRun : bool) :
  spaced t = true ->
  (inRun = true -> startsClean t = true) ->
  replaceWhiteRuns inRun t = t.
Proof.
  revert inRun. induction t as [|c r IH]; intros inRun Hsp Hst;
    [reflexivity|].
  simpl in *. destruct (isWhite c) eqn:Ec.
  - destruct inRun; [specialize (Hst eq_refl); discriminate|].
    apply andb_prop in Hsp as [Hsp Hr]. apply andb_prop in Hsp as [Hc Hd].
    apply Ascii.eqb_eq in Hc. subst c.
    f_equal. apply IH; [assumption|]. intros _.
    destruct r; [discriminate|exact Hd].
  - f_equal. apply IH; [assumption|discriminate].
Qed.

Lemma spaced_endsClean (t : text) : spaced t = true -> endsClean t = true.
Proof.
  induction t as [|c r IH]; [reflexivity|].
  simpl. destruct (isWhite c) eqn:Ec.
  - intros H. apply andb_prop in H as [H Hr]. apply andb_prop in H as [_ Hd].
    destruct r; [discriminate|auto].
  - intros H. destruct r; [reflexivity|auto].
Qed.

Lemma normalize_normalForm (s : text) : normalForm (normalize s) = true.
Proof.
  unfold normalForm, normalize.
  destruct (trim_clean s) as [Hs He].
  destruct (replaceWhiteRuns_shape (trim s) false He) as (H1 & H2 & _).
  now rewrite H1, H2 by auto.
Qed.

Lemma normalize_fixed (t : text) : normalForm t = true -> normalize t = t.
Proof.
  unfold normalForm, normalize. intros H.
  apply andb_prop in H as [Hs Hsp].
  rewrite (trim_id t Hs (spaced_endsClean t Hsp)).
  apply replaceWhiteRuns_fixed; [assumption|discriminate].
Qed.

Lemma normalize_nil (s : text) :
  Forall (fun c => isWhite c = true) s -> normalize s = [].
Proof.
  intros H. unfold normalize. apply trim_nil_iff in H. now rewrite H.
Qed.

(** X18. [normalize] yields words separated by single spaces: the result
    neither begins nor ends with whitespace, each whitespace character in
    it is one space followed by another kind of character, and normalizing
    it again changes nothing. *)
Theorem normalize_idempotent (s : text) :
  normalForm (normalize s) = true
  /\ endsClean (normalize s) = true
  /\ normalize (normalize s) = normalize s.
Proof.
  pose proof (normalize_normalForm s) as H.
  split; [exact H|]. split; [|now apply normalize_fixed].
  apply spaced_endsClean. unfold normalForm in H.
  now apply andb_prop in H as [_ H].
Qed.

(** X19. The texts [normalize] leaves as they are are exactly the ones in
    that form. *)
Theorem normalize_fixed_points (t : text) :
  normalize t = t <-> normalForm t = true.
Proof.
  split; [|apply normalize_fixed].
  intros H. rewrite <- H. apply normalize_normalForm.
Qed.

(** X20. [normalize] returns the empty string exactly for the texts made of
    whitespace only (the empty one among them). *)
Theorem normalize_empty (s : text) :
  normalize s = [] <-> Forall (fun c => isWhite c = true) s.
Proof.
  split; [|apply normalize_nil].
  unfold normalize. intros H. apply trim_nil_iff.
  destruct (trim s) as [|c r]; [reflexivity|].
  simpl in H. destruct (isWhite c); discriminate.
Qed.

(** ** Text utilities: escaping *)

Lemma unescape_escapeRegExp (s : text) : unescape (escapeRegExp s) = s.
Proof.
  induction s as [|c r IH]; [reflexivity|].
  simpl. destruct (isRegExpSpecial c) eqn:E.
  - simpl. now rewrite IH.
  - simpl. destruct (Ascii.eqb_spec c "\"%char) as [->|_];
      [discriminate E|]. now rewrite IH.
Qed.

(** X21. [escapeRegExp] loses nothing: dropping the inserted backslashes
    gives the needle back, so two different needles never yield the same
    pattern; a needle without special characters is its own pattern. *)
Theorem escapeRegExp_faithful (a b : text) :
  unescape (escapeRegExp a) = a
  /\ (escapeRegExp a = escapeRegExp b -> a = b)
  /\ (forallb (fun c => negb (isRegExpSpecial c)) a = true ->
      escapeRegExp a = a).
Proof.
  split; [apply unescape_escapeRegExp|]. split.
  - intros H. apply (f_equal unescape) in H.
    now rewrite !unescape_escapeRegExp in H.
  - induction a as [|c r IH]; [reflexivity|].
    simpl. intros H. apply andb_prop in H as [Hc Hr].
    apply negb_true_iff in Hc. rewrite Hc. now rewrite IH.
Qed.

Lemma escapeRegExp_faithful_witness :
  escapeRegExp (str "tavern") = str "tavern".
Proof.
  apply (proj2 (proj2 (escapeRegExp_faithful (str "tavern") (str "a.b")))).
  reflexivity.
Defined.

(** ** Text utilities: cleaning a recorded transcript *)

Lemma trim_sublist (t : text) :
  exists pre post, t = pre ++ trim t ++ post.
Proof.
  unfold trim.
  destruct (dropWhile_split isWhite t) as (pre & Ht & _).
  destruct (dropWhile_split isWhite (rev (dropWhile isWhite t)))
    as (post & Hr & _).
  exists pre, (rev post).
  rewrite <- rev_app_distr, <- Hr, rev_involutive. exact Ht.
Qed.

Lemma In_trim (c : ascii) (t : text) : In c (trim t) -> In c t.
Proof.
  destruct (trim_sublist t) as (pre & post & Ht). intros H.
  rewrite Ht. apply in_or_app. right. apply in_or_app. now left.
Qed.

Lemma In_squeezeNewlines (c : ascii) (t : text) (run : nat) :
  In c (squeezeNewlines run t) -> In c t.
Proof.
  revert run. induction t as [|d r IH]; intros run; simpl; [auto|].
  destruct (Ascii.eqb_spec d newline) as [->|_].
  - destruct (run <? 2)%nat; simpl.
    + intros [H|H]; eauto.
    + eauto.
  - simpl. intros [H|H]; eauto.
Qed.

Lemma removeEllipses_clean (n : nat) (t : text) :
  (length t <= n)%nat -> ~ In ellipsis (removeEllipses t).
Proof.
  revert t. induction n as [|n IH]; intros t Hn.
  - destruct t; [auto|simpl in Hn; lia].
  - destruct t as [|c r]; [auto|]. simpl in Hn. simpl.
    destruct (Ascii.eqb_spec c ellipsis) as [->|Hne].
    + destruct r as [|d r']; [auto|].
      destruct (Ascii.eqb d newline).
      * apply IH. simpl in Hn. lia.
      * apply IH. lia.
    + simpl. intros [H|H]; [congruence|].
      revert H. apply IH. lia.
Qed.

Lemma shortRuns_mono (k k' : nat) (t : text) :
  (k' <= k)%nat -> shortRuns k t = true -> shortRuns k' t = true.
Proof.
  intros Hk. destruct t as [|c r]; [reflexivity|]. simpl.
  destruct (Ascii.eqb c newline); [|auto].
  intros H. apply andb_prop in H as [H1 H2].
  apply Nat.ltb_lt in H1.
  assert (H3 : (k' <? 2)%nat = true) by (apply Nat.ltb_lt; lia).
  rewrite H3. simpl.
  revert H2. clear H1 H3. revert k k' Hk.
  induction r as [|d r IH]; intros k k' Hk; [reflexivity|]. simpl.
  destruct (Ascii.eqb d newline); [|auto].
  intros H. apply andb_prop in H as [H1 H2].
  apply Nat.ltb_lt in H1.
  assert (H3 : (S k' <? 2)%nat = true) by (apply Nat.ltb_lt; lia).
  rewrite H3. simpl. apply (IH (S k) (S k')); [lia|assumption].
Qed.

Lemma shortRuns_app (l1 l2 : text) (k : nat) :
  shortRuns k (l1 ++ l2) = true ->
  shortRuns k l1 = true /\ shortRuns 0 l2 = true.
Proof.
  revert k. induction l1 as [|c r IH]; intros k; simpl.
  - intros H. split; [reflexivity|]. apply (shortRuns_mono k 0); [lia|auto].
  - destruct (Ascii.eqb c newline).
    + intros H. apply andb_prop in H as [H1 H2].
      destruct (IH _ H2) as [H3 H4]. now rewrite H1, H3.
    + apply IH.
Qed.

Lemma squeezeNewlines_shortRuns (t : text) (run : nat) :
  (run <= 2)%nat -> shortRuns run (squeezeNewlines run t) = true.
Proof.
  revert run. induction t as [|c r IH]; intros run Hrun; [reflexivity|].
  simpl. destruct (Ascii.eqb_spec c newline) as [->|Hne].
  - destruct (Nat.ltb_spec run 2) as [Hlt|Hge].
    + simpl. rewrite ?Ascii.eqb_refl.
      assert (H : (run <? 2)%nat = true) by now apply Nat.ltb_lt.
      rewrite H. simpl. apply IH. lia.
    + apply IH. lia.
  - simpl. apply Ascii.eqb_neq in Hne. rewrite Hne. apply IH. lia.
Qed.

(** X22. A cleaned transcript is never empty, contains no ellipsis and no
    three line feeds in a row, and neither begins nor ends with
    whitespace. *)
Theorem cleanTranscript_clean (s : text) :
  cleanTranscript s <> []
  /\ ~ In ellipsis (cleanTranscript s)
  /\ shortRuns 0 (cleanTranscript s) = true
  /\ startsClean (cleanTranscript s) = true
  /\ endsClean (cleanTranscript s) = true.
Proof.
  unfold cleanTranscript.
  set (u := squeezeNewlines 0 (removeEllipses s)).
  destruct (trim u) as [|c r] eqn:E.
  - split; [discriminate|]. split; [|repeat split].
    vm_compute. intros H.
    repeat (destruct H as [H|H]; [discriminate H|]). exact H.
  - rewrite <- E. split; [rewrite E; discriminate|]. split; [|split].
    + intros H. apply In_trim in H. unfold u in H.
      apply In_squeezeNewlines in H.
      exact (removeEllipses_clean (length s) s (Nat.le_refl _) H).
    + destruct (trim_sublist u) as (pre & post & Hu).
      pose proof (squeezeNewlines_shortRuns (removeEllipses s) 0
                    (Nat.le_0_l 2)) as Hsr.
      fold u in Hsr. rewrite Hu in Hsr.
      apply shortRuns_app in Hsr as [_ Hsr].
      now apply shortRuns_app in Hsr as [Hsr _].
    + apply trim_clean.
Qed.

(** ** Search panel: transcript hits *)

Lemma transcriptHitsFrom_spec (txt query : text) (matches : list Z)
  (count : Z) :
  0 <= count <= 30 ->
  let hits := transcriptHitsFrom txt query matches count in
  map th_index hits = firstn (Z.to_nat (30 - count)) matches
  /\ map th_count hits
     = map (fun k => count + Z.of_nat k) (seq 0 (length hits))
  /\ Forall (fun hit => th_needle hit = query
                        /\ len (th_preview hit) <= 2 * 44 + len query + 2)
            hits.
Proof.
  cbv zeta. revert count. induction matches as [|idx rest IH]; intros count Hc.
  - cbn [transcriptHitsFrom map length seq]. rewrite firstn_nil.
    repeat split; constructor.
  - cbn [transcriptHitsFrom].
    destruct (Z.ltb_spec count 30) as [Hlt|Hge].
    + destruct (IH (count + 1)) as (H1 & H2 & H3); [lia|].
      cbn [map length seq th_index th_count]. split; [|split].
      * replace (Z.to_nat (30 - count))
          with (S (Z.to_nat (30 - (count + 1)))) by lia.
        cbn [firstn]. now rewrite H1.
      * f_equal; [lia|]. rewrite H2 at 1.
        rewrite <- seq_shift, map_map. apply map_ext. intros k. lia.
      * constructor; [|exact H3]. cbn [th_needle th_preview].
        split; [reflexivity|].
        pose proof (makePreview_len txt idx (len query)).
        pose proof (len_nonneg query). lia.
    + replace (Z.to_nat (30 - count)) with 0%nat by lia.
      repeat split; constructor.
Qed.

(** X23. The transcript hits of the notes panel are the first 30 matches
    of the normalized query, in order and numbered from 0; each carries the
    normalized query as its needle and a preview of at most
    [2 * 44 + length(query) + 2] characters.  A query of whitespace only
    gives no hits. *)
Theorem transcriptHits_spec (matchesOf : text -> text -> list Z)
  (txt q : text) :
  let query := normalize q in
  let hits := transcriptHits matchesOf txt q in
  (length hits <= 30)%nat
  /\ (query <> [] ->
      map th_index hits = firstn 30 (matchesOf (escapeRegExp query) txt))
  /\ map th_count hits = map Z.of_nat (seq 0 (length hits))
  /\ Forall (fun hit => th_needle hit = query
                        /\ len (th_preview hit) <= 2 * 44 + len query + 2)
            hits
  /\ (Forall (fun c => isWhite c = true) q -> hits = []).
Proof.
  cbv zeta. unfold transcriptHits.
  destruct (normalize q) as [|c r] eqn:E.
  - simpl. repeat split; try constructor; try lia.
    intros H. now contradiction H.
  - rewrite <- E.
    destruct (transcriptHitsFrom_spec txt (normalize q)
                (matchesOf (escapeRegExp (normalize q)) txt) 0)
      as (H1 & H2 & H3); [lia|].
    assert (Hlen : (length (transcriptHitsFrom txt (normalize q)
                              (matchesOf (escapeRegExp (normalize q)) txt) 0)
                    <= 30)%nat).
    { rewrite <- (length_map th_index), H1, length_firstn.
      change (Z.to_nat (30 - 0)) with 30%nat. lia. }
    split; [exact Hlen|]. split; [intros _; exact H1|].
    split; [rewrite H2; apply map_ext; intros k; lia|].
    split; [exact H3|].
    intros Hw. apply normalize_nil in Hw. congruence.
Qed.

Lemma transcriptHits_spec_witness :
  transcriptHits (fun _ _ => [3; 9]) (str "up and up and away") (str "   ")
  = [].
Proof.
  apply (transcriptHits_spec (fun _ _ => [3; 9])
           (str "up and up and away") (str "   ")).
  repeat constructor.
Defined.

(** ** Chapters: appended recordings and new indices *)

(** X24. Appending a recording to a transcript that neither begins nor
    ends with whitespace leaves every highlight of it in place: a range
    within the old transcript lies within the new one and spans the same
    text. *)
Theorem appendTranscript_keeps_spans (transcript transcriptNew : text)
  (h : Highlight) :
  trim transcript = transcript ->
  inRange transcript h ->
  inRange (appendTranscript transcript transcriptNew) h
  /\ spanText (appendTranscript transcript transcriptNew) h
     = spanText transcript h.
Proof.
  intros Htrim (H0 & H1 & H2). unfold appendTranscript. rewrite Htrim.
  destruct transcript as [|c r] eqn:E.
  - unfold len in H2. simpl in H2. lia.
  - rewrite <- E in *. clear E.
    pose proof (len_nonneg ([newline; newline] ++ transcriptNew)) as Hn.
    split.
    + unfold inRange. rewrite len_cat. lia.
    + unfold spanText. apply slice_ext; try lia.
      * rewrite len_cat. lia.
      * intros k Hk. apply charAt_app_l. lia.
Qed.

Lemma appendTranscript_keeps_spans_witness :
  inRange (appendTranscript (str "Hello world") (str "again"))
          (hl "h1" 1 pink 6 11)
  /\ spanText (appendTranscript (str "Hello world") (str "again"))
              (hl "h1" 1 pink 6 11)
     = spanText (str "Hello world") (hl "h1" 1 pink 6 11).
Proof.
  apply appendTranscript_keeps_spans.
  - reflexivity.
  - vm_compute. repeat split; intro; discriminate.
Defined.

(** X25. The index given to a newly recorded chapter is at least 1 and
    greater than the index of every chapter of the book. *)
Theorem nextIndex_fresh (indices : list Z) :
  1 <= nextIndex indices
  /\ forall i, In i indices -> i < nextIndex indices.
Proof.
  unfold nextIndex.
  destruct (maxOf_spec 0 (map orZero indices)) as (H1 & H2 & _).
  split; [lia|].
  intros i Hi. specialize (H2 (orZero i) (in_map orZero indices i Hi)).
  rewrite orZero_id in H2. lia.
Qed.

(** ** Segmenter: normalized highlights *)

Lemma cmpStartCreated_trans (a b c : Highlight) :
  cmpStartCreated a b <= 0 -> cmpStartCreated b c <= 0 ->
  cmpStartCreated a c <= 0.
Proof.
  unfold cmpStartCreated. rewrite !orZero_id.
  destruct (Z.eqb_spec (hl_start a) (hl_start b)),
           (Z.eqb_spec (hl_start b) (hl_start c)),
           (Z.eqb_spec (hl_start a) (hl_start c)); simpl; lia.
Qed.

Lemma cmpStartCreated_total (a b : Highlight) :
  0 <= cmpStartCreated a b -> cmpStartCreated b a <= 0.
Proof.
  unfold cmpStartCreated. rewrite !orZero_id.
  destruct (Z.eqb_spec (hl_start a) (hl_start b)),
           (Z.eqb_spec (hl_start b) (hl_start a)); simpl; lia.
Qed.

Lemma clampHighlight_inRange (txt : text) (h : Highlight) :
  inRange txt h -> clampHighlight (len txt) h = Some h.
Proof.
  intros (H0 & H1 & H2). unfold clampHighlight.
  rewrite !clamp_id by lia.
  destruct (Z.leb_spec (hl_end h) (hl_start h)); [lia|].
  now destruct h.
Qed.

(** X26. Before rendering, the highlights are clamped to the text: every
    highlight that lies within the text is kept as it is, every kept
    highlight lies within the text, and the kept highlights are ordered by
    [start], older first among equal starts. *)
Theorem normalizeHighlights_spec (txt : text) (highlights : list Highlight) :
  let hs := normalizeHighlights (len txt) highlights in
  (forall h, In h highlights -> inRange txt h -> In h hs)
  /\ Forall (inRange txt) hs
  /\ StronglySorted
       (fun a b => hl_start a < hl_start b
                   \/ (hl_start a = hl_start b
                       /\ hl_createdAt a <= hl_createdAt b)) hs.
Proof.
  cbv zeta. split; [|split].
  - intros h Hin Hr. unfold normalizeHighlights.
    rewrite In_sortBy. apply In_dropNulls.
    rewrite <- (clampHighlight_inRange txt h Hr). now apply in_map.
  - apply Forall_forall. intros h Hh.
    exact (normalizeHighlights_inRange (len txt) highlights h
             (len_nonneg txt) Hh).
  - unfold normalizeHighlights.
    set (l := sortBy cmpStartCreated _).
    assert (Hs : StronglySorted (cmpLe cmpStartCreated) l)
      by apply (sortBy_sorted _ cmpStartCreated_trans cmpStartCreated_total).
    clearbody l. induction Hs as [|a r Hr IH Ha]; constructor; [assumption|].
    eapply Forall_impl; [|exact Ha].
    intros b Hab. unfold cmpLe, cmpStartCreated in Hab.
    rewrite !orZero_id in Hab.
    destruct (Z.eqb_spec (hl_start a) (hl_start b)); simpl in Hab; lia.
Qed.

Lemma normalizeHighlights_spec_witness :
  In (hl "h1" 1 pink 0 3)
     (normalizeHighlights (len (str "abcdef"))
        [hl "h2" 2 blue 4 99; hl "h1" 1 pink 0 3]).
Proof.
  apply (proj1 (normalizeHighlights_spec (str "abcdef")
                  [hl "h2" 2 blue 4 99; hl "h1" 1 pink 0 3])).
  - right. left. reflexivity.
  - vm_compute. repeat split; intro; discriminate.
Defined.

(** ** Reconciler: undoing an edit *)

Lemma commonPrefix_unique (a b : text) (q : Z) :
  0 <= q -> q <= len a -> q <= len b ->
  (forall j, 0 <= j < q -> charAt a j = charAt b j) ->
  (q = len a \/ q = len b \/ charAt a q <> charAt b q) ->
  q = commonPrefix a b.
Proof.
  intros H0 Ha Hb Hmatch Hexit.
  pose proof (commonPrefix_bounds a b) as (P0 & Pa & Pb).
  pose proof (commonPrefix_match a b) as Pmatch.
  pose proof (commonPrefix_exit a b) as Pexit.
  destruct (Z.lt_trichotomy q (commonPrefix a b)) as [Hlt|[Heq|Hgt]];
    [|assumption|].
  - destruct Hexit as [H|[H|H]]; [lia|lia|].
    contradiction H. apply Pmatch. lia.
  - destruct Pexit as [H|[H|H]]; [lia|lia|].
    contradiction H. apply Hmatch. lia.
Qed.

Lemma commonPrefix_sym (a b : text) : commonPrefix b a = commonPrefix a b.
Proof.
  pose proof (commonPrefix_bounds b a) as (P0 & Pb & Pa).
  apply commonPrefix_unique; try assumption.
  - intros j Hj. symmetry. now apply commonPrefix_match.
  - destruct (commonPrefix_exit b a) as [H|[H|H]]; auto.
Qed.

Lemma commonSuffix_unique (a b : text) (q : Z) :
  let p := commonPrefix a b in
  0 <= q -> q <= len a - p -> q <= len b - p ->
  (forall j, 0 <= j < q ->
             charAt a (len a - 1 - j) = charAt b (len b - 1 - j)) ->
  (q = len a - p \/ q = len b - p
   \/ charAt a (len a - 1 - q) <> charAt b (len b - 1 - q)) ->
  q = commonSuffix a b p.
Proof.
  intros p H0 Ha Hb Hmatch Hexit.
  pose proof (commonSuffix_bounds a b) as (P0 & Pa & Pb).
  pose proof (commonSuffix_match a b) as Pmatch.
  pose proof (commonSuffix_exit a b) as Pexit.
  fold p in P0, Pa, Pb, Pmatch, Pexit.
  destruct (Z.lt_trichotomy q (commonSuffix a b p)) as [Hlt|[Heq|Hgt]];
    [|assumption|].
  - destruct Hexit as [H|[H|H]]; [lia|lia|].
    contradiction H. apply Pmatch. lia.
  - destruct Pexit as [H|[H|H]]; [lia|lia|].
    contradiction H. apply Hmatch. lia.
Qed.

Lemma commonSuffix_sym (a b : text) :
  commonSuffix b a (commonPrefix b a) = commonSuffix a b (commonPrefix a b).
Proof.
  pose proof (commonSuffix_bounds b a) as (P0 & Pb & Pa).
  pose proof (commonSuffix_match b a) as Pmatch.
  pose proof (commonSuffix_exit b a) as Pexit.
  rewrite (commonPrefix_sym a b) in *.
  apply commonSuffix_unique; try assumption.
  - intros j Hj. symmetry. now apply Pmatch.
  - destruct Pexit as [H|[H|H]]; auto.
Qed.

(** X27. Undoing an edit restores the highlights the edit did not touch:
    a highlight that ends within the common prefix, or starts behind the
    edited region of both buffers, is reconciled to the new text and back
    to the old one with its identity and its offsets as they were. *)
Theorem reconcile_round_trip
  (oldText newText : text) (oldHighlights : list Highlight) :
  Forall (fun h =>
            inRange oldText h
            /\ (hl_end h <= commonPrefix oldText newText
                \/ (oldMidEnd oldText newText <= hl_start h
                    /\ commonPrefix oldText newText < hl_start h
                    /\ commonPrefix oldText newText
                       < hl_start h + (len newText - len oldText))))
         oldHighlights ->
  map entity
      (reconcileHighlightsAfterEdit newText oldText
         (reconcileHighlightsAfterEdit oldText newText oldHighlights))
  = map entity oldHighlights.
Proof.
  unfold reconcileHighlightsAfterEdit.
  induction 1 as [|h r [Hr Hcase] _ IH]; [reflexivity|].
  assert (Hback : exists h' h'',
             shiftHighlight oldText newText h = Some h'
             /\ shiftHighlight newText oldText h' = Some h''
             /\ entity h'' = entity h).
  { destruct Hcase as [Hpre|(Hmid & Hp1 & Hp2)].
    - destruct (shiftHighlight_in_prefix oldText newText h Hr Hpre)
        as (h' & Hs & He & _).
      pose proof (shiftHighlight_inRange _ _ _ _ Hs) as Hr'.
      assert (Hpre' : hl_end h' <= commonPrefix newText oldText).
      { rewrite commonPrefix_sym. unfold entity in He.
        injection He as _ _ _ _ ->. exact Hpre. }
      destruct (shiftHighlight_in_prefix newText oldText h' Hr' Hpre')
        as (h'' & Hs' & He' & _).
      exists h', h''. split; [assumption|]. split; [assumption|].
      congruence.
    - destruct (shiftHighlight_in_suffix oldText newText h Hr Hp1 Hmid)
        as (h' & Hs & Hi & Hc & Hk & Hst & Hen & _).
      pose proof (shiftHighlight_inRange _ _ _ _ Hs) as Hr'.
      assert (Hp1' : commonPrefix newText oldText < hl_start h')
        by (rewrite commonPrefix_sym, Hst; exact Hp2).
      assert (Hmid' : oldMidEnd newText oldText <= hl_start h').
      { unfold oldMidEnd in *. rewrite commonSuffix_sym, Hst. lia. }
      destruct (shiftHighlight_in_suffix newText oldText h' Hr' Hp1' Hmid')
        as (h'' & Hs' & Hi' & Hc' & Hk' & Hst' & Hen' & _).
      exists h', h''. split; [assumption|]. split; [assumption|].
      unfold entity. rewrite Hi', Hc', Hk', Hst', Hen', Hi, Hc, Hk, Hst, Hen.
      repeat f_equal; lia. }
  destruct Hback as (h' & h'' & Hs & Hs' & He).
  simpl. rewrite Hs. simpl. rewrite Hs'. simpl. now rewrite He, IH.
Qed.

Lemma reconcile_round_trip_witness :
  map entity
      (reconcileHighlightsAfterEdit (str "Hello small world")
         (str "Hello big world")
         (reconcileHighlightsAfterEdit (str "Hello big world")
            (str "Hello small world")
            [hl "h1" 1 pink 0 5; hl "h2" 2 blue 10 15]))
  = map entity [hl "h1" 1 pink 0 5; hl "h2" 2 blue 10 15].
Proof.
  apply reconcile_round_trip.
  constructor; [|constructor; [|constructor]].
  - split; [vm_compute; repeat split; intro; discriminate|].
    left. vm_compute. intro; discriminate.
  - split; [vm_compute; repeat split; intro; discriminate|].
    right. vm_compute.
    split; [intro; discriminate|]. split; reflexivity.
Defined.

(** ** Concrete instances *)

Lemma applyHighlight_colored_witness :
  colored (applyHighlight (str "0123456789") [hl "h1" 1 blue 2 5]
                          6 9 pink "h2" 2) pink 7.
Proof.
  apply (proj2 (applyHighlight_colored (str "0123456789")
                  [hl "h1" 1 blue 2 5] 6 9 pink "h2" 2 pink 7)).
  right. vm_compute. repeat split; intro; discriminate.
Defined.

Lemma normalize_fixed_points_witness :
  normalize (str "two words") = str "two words".
Proof.
  apply (proj2 (normalize_fixed_points (str "two words"))). reflexivity.
Defined.

Lemma normalize_empty_witness : normalize (str "   ") = [].
Proof.
  apply (proj2 (normalize_empty (str "   "))). repeat constructor.
Defined.

Lemma nextIndex_fresh_witness : 3 < nextIndex [3; 1; 2].
Proof.
  apply (proj2 (nextIndex_fresh [3; 1; 2])). left. reflexivity.
Defined.
